(** * kysely: operation nodes, the schema-qualification transformer,
      the expression normalizer and the raw compiled query

    Shallow embedding of
    - [src/plugin/with-schema/with-schema-transformer.ts]
      ([WithSchemaTransformer]),
    - the expression parser, [src/unnamed/part_001] ([parseExpression],
      [parseAliasedExpression]), with the interfaces of
      [src/unnamed/part_000],
    - the compiled query, [src/unnamed/part_002] ([CompiledQuery.raw],
      in its two forms),
    and of the parts of the operation-node model these files touch. *)

From Stdlib Require Import ZArith.
From stdpp Require Import base gmap sets list strings.

#[local] Set Warnings "-clear-no-such-hyp".
Open Scope string_scope.

(** ** Operation nodes

    An operation node is a frozen JavaScript object with a [kind]
    discriminant and further own properties.  A property holds a scalar
    (or [undefined]), a child node, or an array of those.  The node
    classes themselves live in [operation-node/*.ts]; the embedding keeps
    them in the dynamic form the transformer inspects (['name' in node],
    [node.from.froms], [TableNode.is(node)], ...). *)

#[local] Set Warnings "-register-all".

Inductive Prim : Type :=
| PUndefined
| PNull
| PBool (b : bool)
| PNumber (z : Z)
| PString (s : string).

Inductive OperationNode : Type :=
| VPrim (p : Prim)
| VArray (items : list OperationNode)
| VNode (kind : string) (props : list (string * OperationNode)).

Abbreviation undefined := (VPrim PUndefined).
Abbreviation VString s := (VPrim (PString s)).

(** Induction principle that reaches the children stored in the nested
    lists. *)
Section OperationNode_induction.
Variable P : OperationNode → Prop.
Hypothesis Hprim : ∀ p, P (VPrim p).
Hypothesis Harray : ∀ items, Forall P items → P (VArray items).
Hypothesis Hnode : ∀ kind props, Forall (λ kv, P kv.2) props → P (VNode kind props).

Fixpoint OperationNode_nested_ind (v : OperationNode) : P v :=
  match v with
  | VPrim p => Hprim p
  | VArray items =>
      Harray items
        ((fix go (l : list OperationNode) : Forall P l :=
            match l with
            | [] => Forall_nil_2 P
            | x :: r => Forall_cons_2 P x r (OperationNode_nested_ind x) (go r)
            end) items)
  | VNode kind props =>
      Hnode kind props
        ((fix go (l : list (string * OperationNode)) : Forall (λ kv, P kv.2) l :=
            match l with
            | [] => Forall_nil_2 _
            | kv :: r =>
                Forall_cons_2 (λ kv, P kv.2) kv r
                  (OperationNode_nested_ind kv.2) (go r)
            end) props)
  end.
End OperationNode_induction.

(** *** Property access

    [getProp k node] is [node.k] (and, on the result, ['k' in node &&
    node.k] is [truthy (getProp k node)]): the first binding of [k], or
    [undefined] when the property is absent.  TypeScript's node types
    exclude a property read on something that is not an object, where
    JavaScript would raise; the embedding answers [undefined] there. *)

Fixpoint lookupProp (k : string) (props : list (string * OperationNode)) : OperationNode :=
  match props with
  | [] => undefined
  | (k', x) :: rest => if String.eqb k k' then x else lookupProp k rest
  end.

Definition getProp (k : string) (node : OperationNode) : OperationNode :=
  match node with
  | VNode _ props => lookupProp k props
  | _ => undefined
  end.

(** [{...node, k: x}]: an own property keeps its place and takes the new
    value, a new one is appended. *)
Fixpoint assignProp (k : string) (x : OperationNode)
    (props : list (string * OperationNode)) : list (string * OperationNode) :=
  match props with
  | [] => [(k, x)]
  | (k', y) :: rest =>
      if String.eqb k k' then (k', x) :: rest else (k', y) :: assignProp k x rest
  end.

Definition setProp (k : string) (x : OperationNode) (node : OperationNode) : OperationNode :=
  match node with
  | VNode kind props => VNode kind (assignProp k x props)
  | _ => node
  end.

(** JavaScript truthiness of a property value. *)
Definition truthy (v : OperationNode) : bool :=
  match v with
  | VPrim PUndefined | VPrim PNull => false
  | VPrim (PBool b) => b
  | VPrim (PNumber z) => negb (Z.eqb z 0)
  | VPrim (PString s) => negb (String.eqb s "")
  | VArray _ | VNode _ _ => true
  end.

Definition kindIs (k : string) (node : OperationNode) : bool :=
  match node with
  | VNode kind _ => String.eqb kind k
  | _ => false
  end.

(** [X.is(node)] is [node.kind === 'X'] for each node class; [is] is a reserved word here, hence [is_]. *)
Module SchemableIdentifierNode.
Definition is_ (node : OperationNode) : bool := kindIs "SchemableIdentifierNode" node.
End SchemableIdentifierNode.

Module TableNode.
Definition is_ (node : OperationNode) : bool := kindIs "TableNode" node.
End TableNode.

Module AliasNode.
Definition is_ (node : OperationNode) : bool := kindIs "AliasNode" node.

(** Modelled from the spec: [AliasNode.create] ([operation-node/alias-node.ts]
    is not part of the sources): an Alias node wrapping the inner
    expression's node and the node of the alias. *)
Definition create (node alias : OperationNode) : OperationNode :=
  VNode "AliasNode" [("node", node); ("alias", alias)].
End AliasNode.

Module IdentifierNode.
(** The literal [{ kind: 'IdentifierNode', name }] the transformer
    builds for the schema. *)
Definition create (name : string) : OperationNode :=
  VNode "IdentifierNode" [("name", VString name)].
End IdentifierNode.

(** [node.k] read as a string, as [Set<string>] methods consume it. *)
Definition stringProp (k : string) (node : OperationNode) : option string :=
  match getProp k node with
  | VString s => Some s
  | _ => None
  end.

(** [node.identifier.name] of a schemable identifier. *)
Definition identifierName (node : OperationNode) : option string :=
  stringProp "name" (getProp "identifier" node).

(** [for (const x of v)] over a property that holds an array. *)
Definition arrayItems (v : OperationNode) : list OperationNode :=
  match v with
  | VArray items => items
  | _ => []
  end.

(** ** Root operation nodes *)

Definition ROOT_OPERATION_NODES : list string :=
  [ "AlterTableNode"; "CreateIndexNode"; "CreateSchemaNode"; "CreateTableNode";
    "CreateTypeNode"; "CreateViewNode"; "DeleteQueryNode"; "DropIndexNode";
    "DropSchemaNode"; "DropTableNode"; "DropTypeNode"; "DropViewNode";
    "InsertQueryNode"; "RawNode"; "SelectQueryNode"; "UpdateQueryNode" ].

Definition isRootKind (kind : string) : bool :=
  existsb (String.eqb kind) ROOT_OPERATION_NODES.

(** [#isRootOperationNode]: [node.kind in ROOT_OPERATION_NODES]. *)
Definition isRootOperationNode (node : OperationNode) : bool :=
  match node with
  | VNode kind _ => isRootKind kind
  | _ => false
  end.

(** ** The scope set and the traversal monad

    [#schemableIds] is a [Set<string>] owned by the transformer; every
    method below receives the current set and returns the new one. *)

Abbreviation Scope := (gset string).

Definition has (ids : Scope) (name : option string) : bool :=
  match name with
  | Some n => bool_decide (n ∈ ids)
  | None => false
  end.

Definition Traversal (A : Type) : Type := Scope → A * Scope.

Definition tret {A} (a : A) : Traversal A := λ ids, (a, ids).

Definition tbind {A B} (m : Traversal A) (f : A → Traversal B) : Traversal B :=
  λ ids, let '(a, ids1) := m ids in f a ids1.

Notation "'let*' x ':=' m 'in' k" := (tbind m (λ x, k))
  (at level 10, x name, m at level 100, k at level 200, only parsing).

(** [list.map(f)] with the scope threaded from left to right. *)
Definition mapT {A B} (f : A → Traversal B) : list A → Traversal (list B) :=
  fix go (l : list A) : Traversal (list B) :=
    match l with
    | [] => tret []
    | x :: rest => let* y := f x in let* ys := go rest in tret (y :: ys)
    end.

(** ** Collecting the tables of a root node *)

(** [#collectSchemableId]: the name enters the local set unless the
    transformer's scope already has it. *)
Definition collectSchemableId (this_ids : Scope) (node : OperationNode)
    (schemableIds : Scope) : Scope :=
  match identifierName node with
  | Some name =>
      if negb (has this_ids (Some name)) then {[ name ]} ∪ schemableIds
      else schemableIds
  | None => schemableIds
  end.

(** [#collectSchemableIdsFromTableExpr]. *)
Definition collectSchemableIdsFromTableExpr (this_ids : Scope) (node : OperationNode)
    (schemableIds : Scope) : Scope :=
  let table :=
    if TableNode.is_ node then Some node
    else if AliasNode.is_ node && TableNode.is_ (getProp "node" node)
         then Some (getProp "node" node)
         else None in
  match table with
  | Some t => collectSchemableId this_ids (getProp "table" t) schemableIds
  | None => schemableIds
  end.

(** [#removeCommonTableExpressionTables]. *)
Definition cteName (expr : OperationNode) : option string :=
  identifierName (getProp "table" (getProp "table" (getProp "name" expr))).

Definition removeCommonTableExpressionTables (node : OperationNode)
    (schemableIds : Scope) : Scope :=
  foldl (λ ids expr,
           match cteName expr with
           | Some name => ids ∖ {[ name ]}
           | None => ids
           end)
        schemableIds (arrayItems (getProp "expressions" node)).

(** [#collectSchemableIds]. *)
Definition collectSchemableIds (this_ids : Scope) (node : OperationNode) : Scope :=
  let ids0 : Scope := ∅ in
  let ids1 :=
    if truthy (getProp "name" node) && SchemableIdentifierNode.is_ (getProp "name" node)
    then collectSchemableId this_ids (getProp "name" node) ids0 else ids0 in
  let ids2 :=
    if truthy (getProp "from" node)
    then foldl (λ ids from, collectSchemableIdsFromTableExpr this_ids from ids)
               ids1 (arrayItems (getProp "froms" (getProp "from" node)))
    else ids1 in
  let ids3 :=
    if truthy (getProp "into" node)
    then collectSchemableIdsFromTableExpr this_ids (getProp "into" node) ids2 else ids2 in
  let ids4 :=
    if truthy (getProp "table" node)
    then collectSchemableIdsFromTableExpr this_ids (getProp "table" node) ids3 else ids3 in
  let ids5 :=
    if truthy (getProp "joins" node)
    then foldl (λ ids join,
                  collectSchemableIdsFromTableExpr this_ids (getProp "table" join) ids)
               ids4 (arrayItems (getProp "joins" node))
    else ids4 in
  if truthy (getProp "with" node)
  then removeCommonTableExpressionTables (getProp "with" node) ids5 else ids5.

(** ** The generic transformer engine *)

Module OperationNodeTransformer.
Section Engine.
(** [this.transformNode], which a subclass reaches through its
    overrides. *)
Variable this_transformNode : OperationNode → Traversal OperationNode.

(** Modelled from the spec: the default handler of a node kind in
    [OperationNodeTransformer] ([operation-node/operation-node-transformer.ts]
    is not part of the sources): every child node and child sequence is
    transformed recursively, in order, and the node is rebuilt from the
    results with the same [kind]; scalar properties are carried over.
    Returning the original reference when no child changed is not
    observable on structural values.  Dispatch on a tag outside the
    closed enumeration of kinds, a fatal error there, is excluded by the
    node types and not represented. *)
Definition transformChildren (kind : string) (props : list (string * OperationNode))
    : Traversal OperationNode :=
  let* props' :=
    mapT (λ kv, let* x := this_transformNode kv.2 in tret (kv.1, x)) props in
  tret (VNode kind props').

(** Modelled from the spec: [transformNodeList], a child sequence is
    transformed element by element. *)
Definition transformNodeList (items : list OperationNode) : Traversal OperationNode :=
  let* items' := mapT this_transformNode items in
  tret (VArray items').

(** Modelled from the spec: [super.transformSchemableIdentifier], the
    default handler at kind [SchemableIdentifierNode]. *)
Definition transformSchemableIdentifier (kind : string)
    (props : list (string * OperationNode)) : Traversal OperationNode :=
  transformChildren kind props.
End Engine.
End OperationNodeTransformer.

(** ** The schema-qualification transformer *)

Module WithSchemaTransformer.
Section Transformer.
(** [#schema], fixed by the constructor. *)
Variable schema : string.

(** [for (const table of tables) this.#schemableIds.add(table)]. *)
Definition addAll (tables : Scope) (ids : Scope) : Scope :=
  set_fold (λ table acc, {[ table ]} ∪ acc) ids tables.

(** [for (const table of tables) this.#schemableIds.delete(table)]. *)
Definition deleteAll (tables : Scope) (ids : Scope) : Scope :=
  set_fold (λ table acc, acc ∖ {[ table ]}) ids tables.

(** The override of [transformSchemableIdentifier]; [super_transform]
    is the engine's handler applied to the same node. *)
Definition transformSchemableIdentifier (super_transform : Traversal OperationNode)
    (node : OperationNode) : Traversal OperationNode :=
  let* transformed := super_transform in
  λ ids,
    if truthy (getProp "schema" transformed) || negb (has ids (identifierName node))
    then (transformed, ids)
    else (setProp "schema" (IdentifierNode.create schema) transformed, ids).

(** [super.transformNodeImpl]: dispatch on [node.kind] to the handler of
    that kind, which for a schemable identifier is the override above. *)
Definition super_transformNodeImpl
    (this_transformNode : OperationNode → Traversal OperationNode)
    (kind : string) (props : list (string * OperationNode)) : Traversal OperationNode :=
  if String.eqb kind "SchemableIdentifierNode"
  then transformSchemableIdentifier
         (OperationNodeTransformer.transformSchemableIdentifier this_transformNode kind props)
         (VNode kind props)
  else OperationNodeTransformer.transformChildren this_transformNode kind props.

(** The override of [transformNodeImpl]. *)
Definition transformNodeImpl
    (this_transformNode : OperationNode → Traversal OperationNode)
    (kind : string) (props : list (string * OperationNode)) : Traversal OperationNode :=
  if negb (isRootOperationNode (VNode kind props))
  then super_transformNodeImpl this_transformNode kind props
  else
    λ ids,
      let tables := collectSchemableIds ids (VNode kind props) in
      let '(transformed, ids') :=
        super_transformNodeImpl this_transformNode kind props (addAll tables ids) in
      (transformed, deleteAll tables ids').

(** [transformNode]: [undefined] and scalars pass through, a node goes to
    [transformNodeImpl], a child sequence to [transformNodeList]. *)
Fixpoint transformNode (node : OperationNode) : Traversal OperationNode :=
  match node with
  | VPrim _ => tret node
  | VArray items => OperationNodeTransformer.transformNodeList transformNode items
  | VNode kind props => transformNodeImpl transformNode kind props
  end.

End Transformer.

(** One run of a new transformer instance over a tree: the scope starts
    empty. *)
Definition run (schema : string) (node : OperationNode) : OperationNode :=
  (transformNode schema node ∅).1.

End WithSchemaTransformer.

(** ** Values handed to the expression normalizer

    [parseExpression] receives an arbitrary JavaScript value and probes
    it.  A value is a primitive ([undefined], [null], a string, a number,
    a bigint, ...), an object, or a function, as [typeof] tells them
    apart.  Of an object the normalizer can observe the node its
    [toOperationNode()] method returns when it has one and the
    [expression] and [alias] getters of an aliased expression; of a
    function, what it returns for a builder, and the [toOperationNode]
    method it may carry as a property of its own.  Each value comes with
    the text [JSON.stringify] prints for it, if any: for a bigint and for
    an object with a cycle [JSON.stringify] throws a [TypeError] instead.
    Methods and factories are pure (section 4.1 of the specification). *)

Definition ExpressionBuilder : Type := nat.

Inductive JsValue : Type :=
| JsPrimitive (json : option string)
| JsObject (method : option OperationNode) (expression_getter : option JsValue)
    (alias_getter : option string) (json : option string)
| JsFunction (body : ExpressionBuilder → JsValue) (method : option OperationNode).

(** The node [obj.toOperationNode()] returns, when [obj] has the
    method. *)
Definition toOperationNode (obj : JsValue) : option OperationNode :=
  match obj with
  | JsPrimitive _ => None
  | JsObject method _ _ _ => method
  | JsFunction _ method => method
  end.

(** The function [obj] is, when it is one. *)
Definition call (obj : JsValue) : option (ExpressionBuilder → JsValue) :=
  match obj with
  | JsFunction body _ => Some body
  | _ => None
  end.

(** [obj.expression] and [obj.alias]. *)
Definition expression (obj : JsValue) : option JsValue :=
  match obj with
  | JsObject _ expression_getter _ _ => expression_getter
  | _ => None
  end.

Definition alias (obj : JsValue) : option string :=
  match obj with
  | JsObject _ _ alias_getter _ => alias_getter
  | _ => None
  end.

(** The text [`${JSON.stringify(obj)}`] interpolates, [None] when
    [JSON.stringify] throws; for a function the result is [undefined]. *)
Definition JSON_stringify (obj : JsValue) : option string :=
  match obj with
  | JsPrimitive json => json
  | JsObject _ _ _ json => json
  | JsFunction _ _ => Some "undefined"
  end.

(** Modelled from the spec: [isObject] ([util/object-utils.ts] is not
    part of the sources), [typeof obj === 'object' && obj !== null];
    [null] is among the primitives here. *)
Definition isObject (obj : JsValue) : bool :=
  match obj with
  | JsObject _ _ _ _ => true
  | _ => false
  end.

(** Modelled from the spec: [isOperationNodeSource]
    ([operation-node/operation-node-source.ts] is not part of the
    sources), the predicate that checks the presence of the
    [toOperationNode] capability on an object,
    [isObject(obj) && isFunction(obj.toOperationNode)]; a function is not
    an object, whatever properties it carries. *)
Definition isOperationNodeSource (obj : JsValue) : bool :=
  isObject obj
  && match toOperationNode obj with Some _ => true | None => false end.

(** Modelled from the spec: [isFunction] ([util/object-utils.ts] is not
    part of the sources), [typeof obj === 'function']. *)
Definition isFunction (obj : JsValue) : bool :=
  match call obj with Some _ => true | None => false end.

(** *** Observable steps and completions *)

Inductive Event : Type :=
| EvCreateExpressionBuilder (eb : ExpressionBuilder)
| EvCall (callee : JsValue) (eb : ExpressionBuilder)
| EvToOperationNode (receiver : JsValue).

Inductive JsError : Type :=
| Error_ (message : string)
| TypeError.

Inductive Completion (A : Type) : Type :=
| Normal (a : A)
| Throw (e : JsError).
Arguments Normal {A} a.
Arguments Throw {A} e.

(** A computation extends the trace of steps taken so far and completes
    normally or by throwing. *)
Definition Js (A : Type) : Type := list Event → Completion A * list Event.

Definition jret {A} (a : A) : Js A := λ tr, (Normal a, tr).

Definition jthrow {A} (e : JsError) : Js A := λ tr, (Throw e, tr).

Definition jbind {A B} (m : Js A) (f : A → Js B) : Js B :=
  λ tr,
    match m tr with
    | (Normal a, tr1) => f a tr1
    | (Throw e, tr1) => (Throw e, tr1)
    end.

Definition builderOf (ev : Event) : gset ExpressionBuilder :=
  match ev with
  | EvCreateExpressionBuilder eb => {[ eb ]}
  | EvCall _ eb => {[ eb ]}
  | EvToOperationNode _ => ∅
  end.

(** The builder handles a trace mentions. *)
Definition buildersOf (tr : list Event) : gset ExpressionBuilder :=
  foldr (λ ev acc, builderOf ev ∪ acc) ∅ tr.

(** Modelled from the spec: [createExpressionBuilder]
    ([query-builder/expression-builder.ts] is not part of the sources)
    constructs a fresh builder handle: one no earlier step mentions. *)
Definition createExpressionBuilder : Js ExpressionBuilder :=
  λ tr,
    let eb := fresh (buildersOf tr) in
    (Normal eb, (tr ++ [EvCreateExpressionBuilder eb])%list).

(** [obj.toOperationNode()]; a value without the method makes the call
    raise a [TypeError]. *)
Definition callToOperationNode (obj : JsValue) : Js OperationNode :=
  λ tr,
    match toOperationNode obj with
    | Some node => (Normal node, (tr ++ [EvToOperationNode obj])%list)
    | None => (Throw TypeError, tr)
    end.

(** [exp(eb)]. *)
Definition callFunction (exp : JsValue) (eb : ExpressionBuilder) : Js JsValue :=
  λ tr,
    match call exp with
    | Some f => (Normal (f eb), (tr ++ [EvCall exp eb])%list)
    | None => (Throw TypeError, tr)
    end.

(** ** The expression normalizer *)

(** [throw new Error(`prefix${JSON.stringify(exp)}`)]: the message is
    built first, so a [TypeError] of [JSON.stringify] is what leaves the
    function when the value cannot be serialized. *)
Definition throwInvalid {A} (prefix : string) (exp : JsValue) : Js A :=
  match JSON_stringify exp with
  | Some text => jthrow (Error_ (prefix ++ text))
  | None => jthrow TypeError
  end.

Definition parseExpression (exp : JsValue) : Js OperationNode :=
  if isOperationNodeSource exp then callToOperationNode exp
  else if isFunction exp then
    jbind createExpressionBuilder (λ eb,
    jbind (callFunction exp eb) (λ source,
    callToOperationNode source))
  else throwInvalid "invalid expression: " exp.

Definition parseAliasedExpression (exp : JsValue) : Js OperationNode :=
  if isOperationNodeSource exp then callToOperationNode exp
  else if isFunction exp then
    jbind createExpressionBuilder (λ eb,
    jbind (callFunction exp eb) (λ source,
    callToOperationNode source))
  else throwInvalid "invalid aliased expression: " exp.

(** The contract of [AliasedExpression<T, A>]: the [expression] and
    [alias] getters, and a node that is the Alias node of the inner
    expression's node and the identifier of the alias. *)
Definition aliasedExpressionNode (obj : JsValue) : option OperationNode :=
  match expression obj, alias obj with
  | Some inner, Some a =>
      match toOperationNode inner with
      | Some node => Some (AliasNode.create node (IdentifierNode.create a))
      | None => None
      end
  | _, _ => None
  end.

Definition AliasedExpressionContract (obj : JsValue) : Prop :=
  is_Some (aliasedExpressionNode obj) ∧
  toOperationNode obj = aliasedExpressionNode obj.

(** ** The raw compiled query *)

Definition QueryId : Type := nat.

(** [CompiledQuery]; [queryId] is [None] on an object that has no such
    property, as the earlier form of the interface. *)
Record CompiledQuery : Type := mkCompiledQuery {
  query : OperationNode;
  queryId : option QueryId;
  sql : string;
  parameters : list Prim
}.

Module RawNode.
(** Modelled from the spec: [RawNode.createWithSql]
    ([operation-node/raw-node.ts] is not part of the sources), a Raw
    root node wrapping the string. *)
Definition createWithSql (sql : string) : OperationNode :=
  VNode "RawNode" [("sqlFragments", VArray [VString sql]); ("parameters", VArray [])].
End RawNode.

(** Modelled from the spec: [createQueryId] ([util/query-id.ts] is not
    part of the sources) generates an identifier fresh per call, not
    derived from content: one not among those issued so far, which it
    joins. *)
Definition createQueryId (issued : gset QueryId) : QueryId * gset QueryId :=
  let q := fresh issued in (q, {[ q ]} ∪ issued).

(** The form of [compiled-query.ts] without [queryId]. *)
Module CompiledQueryWithoutQueryId.
Definition raw (sql : string) : CompiledQuery :=
  {| sql := sql;
     query := RawNode.createWithSql sql;
     queryId := None;
     parameters := [] |}.
End CompiledQueryWithoutQueryId.

(** The form of [compiled-query.ts] with [queryId]. *)
Module CompiledQueryWithQueryId.
Definition raw (sql : string) (issued : gset QueryId) : CompiledQuery * gset QueryId :=
  let '(id, issued') := createQueryId issued in
  ({| sql := sql;
      query := RawNode.createWithSql sql;
      queryId := Some id;
      parameters := [] |}, issued').
End CompiledQueryWithQueryId.

(** ** The collected tables in the words of the specification

    The names a root node introduces, read off its fields, and the names
    its WITH clause binds; [collectSchemableIds] is compared with these
    below. *)

Definition underlyingTable (expr : OperationNode) : option OperationNode :=
  if TableNode.is_ expr then Some expr
  else if AliasNode.is_ expr
  then (if TableNode.is_ (getProp "node" expr) then Some (getProp "node" expr) else None)
  else None.

Definition tableNameOf (expr : OperationNode) : option string :=
  underlyingTable expr ≫= λ t, identifierName (getProp "table" t).

Definition ownName (node : OperationNode) : list string :=
  if SchemableIdentifierNode.is_ (getProp "name" node)
  then option_list (identifierName (getProp "name" node))
  else [].

Definition introducedTableNames (node : OperationNode) : list string :=
  (ownName node
   ++ omap tableNameOf (arrayItems (getProp "froms" (getProp "from" node)))
   ++ option_list (tableNameOf (getProp "into" node))
   ++ option_list (tableNameOf (getProp "table" node))
   ++ omap (λ join, tableNameOf (getProp "table" join)) (arrayItems (getProp "joins" node)))%list.

Definition withBoundNames (node : OperationNode) : list string :=
  omap cteName (arrayItems (getProp "expressions" (getProp "with" node))).

(** The set of the specification's steps 1 and 2: the introduced names
    minus the WITH-bound ones. *)
Definition specCollectedTables (node : OperationNode) : Scope :=
  list_to_set (introducedTableNames node) ∖ list_to_set (withBoundNames node).

(** ** Notions used in the statements *)

(** The scope the children of a node are transformed under: a root node
    enters the names collected for it. *)
Definition innerScope (ids : Scope) (node : OperationNode) : Scope :=
  if isRootOperationNode node then collectSchemableIds ids node ∪ ids else ids.

(** What [transformSchemableIdentifier] makes of [node] once the engine
    has rebuilt it as [transformed]. *)
Definition qualified (schema : string) (ids : Scope)
    (node transformed : OperationNode) : OperationNode :=
  if truthy (getProp "schema" transformed) || negb (has ids (identifierName node))
  then transformed
  else setProp "schema" (IdentifierNode.create schema) transformed.

(** The node a traversal entered with scope [ids] returns. *)
Definition applied (schema : string) (ids : Scope) (node : OperationNode) : OperationNode :=
  (WithSchemaTransformer.transformNode schema node ids).1.

Definition appliedProps (schema : string) (ids : Scope)
    (props : list (string * OperationNode)) : list (string * OperationNode) :=
  map (λ kv, (kv.1, applied schema ids kv.2)) props.

(** [y] is what some traversal returns for [x]. *)
Definition derived (schema : string) (x y : OperationNode) : Prop :=
  ∃ ids, y = applied schema ids x.

(** A schemable identifier as the node model has it: its properties are
    scalars (or absent) and identifier nodes, [identifier] among them. *)
Definition scalarProps (props : list (string * OperationNode)) : bool :=
  forallb (λ kv, match kv.2 with VPrim _ => true | _ => false end) props.

Definition identifierOrScalar (v : OperationNode) : bool :=
  match v with
  | VPrim _ => true
  | VArray _ => false
  | VNode kind props => String.eqb kind "IdentifierNode" && scalarProps props
  end.

Definition wellFormedSchemableIdentifier (node : OperationNode) : bool :=
  match node with
  | VNode kind props =>
      String.eqb kind "SchemableIdentifierNode"
      && forallb (λ kv, identifierOrScalar kv.2) props
      && kindIs "IdentifierNode" (lookupProp "identifier" props)
  | _ => false
  end.

(** The factory invocations a trace records. *)
Definition calls (tr : list Event) : list (JsValue * ExpressionBuilder) :=
  omap (λ ev, match ev with EvCall callee eb => Some (callee, eb) | _ => None end) tr.

(** The builders constructed along a trace. *)
Definition created (tr : list Event) : list ExpressionBuilder :=
  omap (λ ev, match ev with EvCreateExpressionBuilder eb => Some eb | _ => None end) tr.

(** The source an input of the normalizer stands for: the input itself
    when it is a node source, else what it returns as a factory for the
    builder [eb]. *)
Definition resolvedSource (exp : JsValue) (eb : ExpressionBuilder) : option JsValue :=
  if isOperationNodeSource exp then Some exp
  else match call exp with
       | Some f => Some (f eb)
       | None => None
       end.

(** ** Sample trees and values

    Nodes shaped by the property paths the transformer reads
    ([table.table.identifier.name], [from.froms],
    [with.expressions[i].name.table.table.identifier.name]). *)
Module Sample.

Definition schemableIdentifier (name : string) : OperationNode :=
  VNode "SchemableIdentifierNode" [("identifier", IdentifierNode.create name)].

Definition table (name : string) : OperationNode :=
  VNode "TableNode" [("table", schemableIdentifier name)].

(** The table [schema.name], as the transformer leaves it. *)
Definition qualifiedTable (schema name : string) : OperationNode :=
  VNode "TableNode"
    [("table",
      VNode "SchemableIdentifierNode"
        [("identifier", IdentifierNode.create name);
         ("schema", IdentifierNode.create schema)])].

(** The column reference [t.column] of the table node [t]. *)
Definition reference (t : OperationNode) (column : string) : OperationNode :=
  VNode "ReferenceNode"
    [("table", t);
     ("column", VNode "ColumnNode" [("column", IdentifierNode.create column)])].

Definition equals (left right : OperationNode) : OperationNode :=
  VNode "BinaryOperationNode"
    [("leftOperand", left);
     ("operator", VNode "OperatorNode" [("operator", VString "=")]);
     ("rightOperand", right)].

(** [inner join t on condition]. *)
Definition innerJoin (t condition : OperationNode) : OperationNode :=
  VNode "JoinNode"
    [("joinType", VString "InnerJoin"); ("table", t);
     ("on", VNode "OnNode" [("on", condition)])].

Definition from (froms : list OperationNode) : OperationNode :=
  VNode "FromNode" [("froms", VArray froms)].

Definition commonTableExpression (name' : OperationNode) (expression' : OperationNode)
    : OperationNode :=
  VNode "CommonTableExpressionNode"
    [("name", VNode "CommonTableExpressionNameNode" [("table", name')]);
     ("expression", expression')].

Definition with_ (expressions : list OperationNode) : OperationNode :=
  VNode "WithNode" [("expressions", VArray expressions)].

Definition where_ (condition : OperationNode) : OperationNode :=
  VNode "WhereNode" [("where", condition)].

Definition exists_ (subquery : OperationNode) : OperationNode :=
  VNode "UnaryOperationNode"
    [("operator", VNode "OperatorNode" [("operator", VString "exists")]);
     ("operand", subquery)].

(** [select * from person]. *)
Definition selectFromPerson : OperationNode :=
  VNode "SelectQueryNode" [("from", from [table "person"])].

(** [with foo as (select * from bar) select * from foo]. *)
Definition withFooSelectFoo (foo : OperationNode) (rest : list (string * OperationNode))
    : OperationNode :=
  VNode "SelectQueryNode"
    ([("with",
       with_ [commonTableExpression foo
                (VNode "SelectQueryNode" [("from", from [table "bar"])])]);
      ("from", from [foo])] ++ rest)%list.

(** [select * from a inner join b on a.x = b.y]. *)
Definition selectJoin (a b : OperationNode) : OperationNode :=
  VNode "SelectQueryNode"
    [("from", from [a]);
     ("joins", VArray [innerJoin b (equals (reference a "x") (reference b "y"))])].

(** [select * from (select * from t) as sub, t2]. *)
Definition selectFromSubquery (t t2 : OperationNode) : OperationNode :=
  VNode "SelectQueryNode"
    [("from",
      from [AliasNode.create (VNode "SelectQueryNode" [("from", from [t])])
              (IdentifierNode.create "sub");
            t2])].

(** [select * from foo where exists
       (with foo as (select * from bar) select * from foo)]. *)
Definition enclosingFoo : OperationNode :=
  VNode "SelectQueryNode"
    [("from", from [table "foo"]);
     ("where", where_ (exists_ (withFooSelectFoo (table "foo") [])))].

(** [with foo as (select * from bar) select * from foo
       where exists (select * from foo)]. *)
Definition nestedFoo : OperationNode :=
  withFooSelectFoo (table "foo")
    [("where", where_ (exists_ (VNode "SelectQueryNode" [("from", from [table "foo"])])))].

(** A node source for the table [person], a factory returning it, and
    a function that returns it and carries a [toOperationNode] method of
    its own, for the table [pet]. *)
Definition source : JsValue :=
  JsObject (Some (table "person")) None None (Some "{}").

Definition factory : JsValue :=
  JsFunction (λ _, source) None.

Definition callableSource : JsValue :=
  JsFunction (λ _, source) (Some (table "pet")).

Definition number42 : JsValue :=
  JsPrimitive (Some "42").

(** [source] aliased as [p], and a factory for it. *)
Definition aliased : JsValue :=
  JsObject (Some (AliasNode.create (table "person") (IdentifierNode.create "p")))
    (Some source) (Some "p") (Some "{}").

Definition aliasedFactory : JsValue :=
  JsFunction (λ _, aliased) None.

End Sample.

(** ** Notions used in the further properties *)

(** The names of the schemable identifiers of a tree that carry no
    schema. *)
Fixpoint bareNames (node : OperationNode) : Scope :=
  match node with
  | VPrim _ => ∅
  | VArray items => ⋃ (map bareNames items)
  | VNode kind props =>
      (if String.eqb kind "SchemableIdentifierNode"
          && negb (truthy (lookupProp "schema" props))
       then list_to_set (option_list (identifierName (VNode kind props)))
       else ∅)
      ∪ ⋃ (map (λ kv, bareNames kv.2) props)
  end.

(** The names introduced by the root nodes of a tree, at any depth. *)
Fixpoint introducedAnywhere (node : OperationNode) : Scope :=
  match node with
  | VPrim _ => ∅
  | VArray items => ⋃ (map introducedAnywhere items)
  | VNode kind props =>
      (if isRootKind kind
       then list_to_set (introducedTableNames (VNode kind props))
       else ∅)
      ∪ ⋃ (map (λ kv, introducedAnywhere kv.2) props)
  end.

(** No root operation node occurs in the tree. *)
Fixpoint rootFree (node : OperationNode) : bool :=
  match node with
  | VPrim _ => true
  | VArray items => forallb rootFree items
  | VNode kind props =>
      negb (isRootKind kind) && forallb (λ kv, rootFree kv.2) props
  end.

(** [after] is [before] up to schemas added: same kinds, property names,
    scalars and sequence lengths, and here and there a schemable
    identifier without schema, named in [allowed], that received the
    identifier of [schema] as its [schema]. *)
Inductive qualifiedFrom (schema : string) (allowed : Scope)
    : OperationNode → OperationNode → Prop :=
| qualifiedFrom_prim p :
    qualifiedFrom schema allowed (VPrim p) (VPrim p)
| qualifiedFrom_array items items' :
    Forall2 (qualifiedFrom schema allowed) items items' →
    qualifiedFrom schema allowed (VArray items) (VArray items')
| qualifiedFrom_node kind props props' :
    Forall2 (λ kv kv', kv.1 = kv'.1 ∧ qualifiedFrom schema allowed kv.2 kv'.2)
      props props' →
    qualifiedFrom schema allowed (VNode kind props) (VNode kind props')
| qualifiedFrom_schema kind props props' name :
    Forall2 (λ kv kv', kv.1 = kv'.1 ∧ qualifiedFrom schema allowed kv.2 kv'.2)
      props props' →
    SchemableIdentifierNode.is_ (VNode kind props) = true →
    truthy (lookupProp "schema" props') = false →
    identifierName (VNode kind props) = Some name →
    name ∈ allowed →
    qualifiedFrom schema allowed (VNode kind props)
      (VNode kind (assignProp "schema" (IdentifierNode.create schema) props')).

(** ** The guards of the expression interfaces

    [isObject] ([util/object-utils.ts]) and the test ['expressionType' in
    obj] are parameters here: the properties proved of the guards hold
    whatever these two answer. *)
Section ExpressionGuards.
Variable isObject : JsValue → bool.
Variable hasExpressionType : JsValue → bool.

(** [isExpression]. *)
Definition isExpression (obj : JsValue) : bool :=
  isObject obj && hasExpressionType obj && isOperationNodeSource obj.

(** [isAliasedExpression]: ['expression' in obj] and
    [isString(obj.alias)] read the two getters. *)
Definition isAliasedExpression (obj : JsValue) : bool :=
  isObject obj
  && (match expression obj with Some _ => true | None => false end)
  && (match alias obj with Some _ => true | None => false end)
  && isOperationNodeSource obj.

(** [isExpressionOrFactory]. *)
Definition isExpressionOrFactory (obj : JsValue) : bool :=
  isExpression obj || isFunction obj.
End ExpressionGuards.

(** ** Further sample values *)
Module MoreSamples.
(** A factory that returns the number [42] instead of a node source. *)
Definition badFactory : JsValue :=
  JsFunction (λ _, Sample.number42) None.

End MoreSamples.

(** * Properties *)

(** ** Sets and property lists *)

Lemma addAll_union (tables ids : Scope) :
  WithSchemaTransformer.addAll tables ids = tables ∪ ids.
Proof.
  unfold WithSchemaTransformer.addAll.
  apply (set_fold_ind_L (λ r X, r = X ∪ ids)); [set_solver|].
  intros x X r _ ->. set_solver.
Qed.

Lemma deleteAll_difference (tables ids : Scope) :
  WithSchemaTransformer.deleteAll tables ids = ids ∖ tables.
Proof.
  unfold WithSchemaTransformer.deleteAll.
  apply (set_fold_ind_L (λ r X, r = ids ∖ X)); [set_solver|].
  intros x X r _ ->. set_solver.
Qed.

Lemma collectSchemableId_spec (this_ids : Scope) node (acc : Scope) :
  collectSchemableId this_ids node acc =
  acc ∪ (list_to_set (option_list (identifierName node)) ∖ this_ids).
Proof.
  unfold collectSchemableId.
  destruct (identifierName node) as [name|]; simpl; [|set_solver].
  case_bool_decide; simpl; set_solver.
Qed.

Lemma collectSchemableIdsFromTableExpr_spec (this_ids : Scope) node (acc : Scope) :
  collectSchemableIdsFromTableExpr this_ids node acc =
  acc ∪ (list_to_set (option_list (tableNameOf node)) ∖ this_ids).
Proof.
  unfold collectSchemableIdsFromTableExpr, tableNameOf, underlyingTable.
  destruct (TableNode.is_ node); simpl.
  - apply collectSchemableId_spec.
  - destruct (AliasNode.is_ node); simpl; [|set_solver].
    destruct (TableNode.is_ (getProp "node" node)); simpl; [|set_solver].
    apply collectSchemableId_spec.
Qed.

Lemma foldl_collect_spec (this_ids : Scope) (f : OperationNode → OperationNode)
    (l : list OperationNode) (acc : Scope) :
  foldl (λ ids x, collectSchemableIdsFromTableExpr this_ids (f x) ids) acc l =
  acc ∪ (list_to_set (omap (λ x, tableNameOf (f x)) l) ∖ this_ids).
Proof.
  revert acc. induction l as [|x l IH]; intros acc; simpl; [set_solver|].
  rewrite IH, collectSchemableIdsFromTableExpr_spec.
  destruct (tableNameOf (f x)); simpl; set_solver.
Qed.

Lemma removeCommonTableExpressionTables_spec node (acc : Scope) :
  removeCommonTableExpressionTables node acc =
  acc ∖ list_to_set (omap cteName (arrayItems (getProp "expressions" node))).
Proof.
  unfold removeCommonTableExpressionTables.
  generalize (arrayItems (getProp "expressions" node)) as l.
  intros l. revert acc. induction l as [|x l IH]; intros acc; simpl; [set_solver|].
  rewrite IH. destruct (cteName x); simpl; set_solver.
Qed.

Lemma falsy_getProp (k : string) (v : OperationNode) :
  truthy v = false → getProp k v = undefined.
Proof. destruct v as [p| |]; simpl; try done. Qed.

Lemma falsy_arrayItems (v : OperationNode) :
  truthy v = false → arrayItems v = [].
Proof. destruct v as [p| |]; simpl; try done. Qed.

Lemma falsy_tableNameOf (v : OperationNode) :
  truthy v = false → tableNameOf v = None.
Proof. destruct v as [p| |]; simpl; try done. Qed.

Lemma collectSchemableIds_spec (this_ids : Scope) (node : OperationNode) :
  collectSchemableIds this_ids node =
  (list_to_set (introducedTableNames node) ∖ this_ids)
    ∖ list_to_set (withBoundNames node).
Proof.
  unfold collectSchemableIds, introducedTableNames, withBoundNames, ownName.
  rewrite !list_to_set_app_L.
  set (A := if truthy (getProp "name" node) && _ then _ else _).
  assert (HA : A = list_to_set
            (if SchemableIdentifierNode.is_ (getProp "name" node)
             then option_list (identifierName (getProp "name" node)) else [])
            ∖ this_ids).
  { subst A. destruct (SchemableIdentifierNode.is_ (getProp "name" node)) eqn:His.
    - replace (truthy (getProp "name" node)) with true
        by (destruct (getProp "name" node); done).
      simpl. rewrite collectSchemableId_spec. set_solver.
    - rewrite andb_false_r. set_solver. }
  set (B := if truthy (getProp "from" node) then _ else _).
  assert (HB : B = A ∪ (list_to_set
            (omap tableNameOf (arrayItems (getProp "froms" (getProp "from" node))))
            ∖ this_ids)).
  { subst B. destruct (truthy (getProp "from" node)) eqn:Ht.
    - apply (foldl_collect_spec this_ids (λ x, x)).
    - rewrite (falsy_getProp _ _ Ht). simpl. set_solver. }
  set (C := if truthy (getProp "into" node) then _ else _).
  assert (HC : C = B ∪ (list_to_set (option_list (tableNameOf (getProp "into" node)))
            ∖ this_ids)).
  { subst C. destruct (truthy (getProp "into" node)) eqn:Ht.
    - apply collectSchemableIdsFromTableExpr_spec.
    - rewrite (falsy_tableNameOf _ Ht). simpl. set_solver. }
  set (D := if truthy (getProp "table" node) then _ else _).
  assert (HD : D = C ∪ (list_to_set (option_list (tableNameOf (getProp "table" node)))
            ∖ this_ids)).
  { subst D. destruct (truthy (getProp "table" node)) eqn:Ht.
    - apply collectSchemableIdsFromTableExpr_spec.
    - rewrite (falsy_tableNameOf _ Ht). simpl. set_solver. }
  set (E := if truthy (getProp "joins" node) then _ else _).
  assert (HE : E = D ∪ (list_to_set
            (omap (λ join, tableNameOf (getProp "table" join))
               (arrayItems (getProp "joins" node))) ∖ this_ids)).
  { subst E. destruct (truthy (getProp "joins" node)) eqn:Ht.
    - apply (foldl_collect_spec this_ids (getProp "table")).
    - rewrite (falsy_arrayItems _ Ht). simpl. set_solver. }
  clearbody A B C D E. subst.
  destruct (truthy (getProp "with" node)) eqn:Ht.
  - rewrite removeCommonTableExpressionTables_spec. set_solver.
  - rewrite (falsy_getProp _ _ Ht). simpl. set_solver.
Qed.

(** ** The scope is restored *)

Lemma mapT_restores {A B} (f : A → Traversal B) (l : list A) :
  Forall (λ x, ∀ ids, (f x ids).2 = ids) l →
  ∀ ids, mapT f l ids = (map (λ x, (f x ids).1) l, ids).
Proof.
  induction 1 as [|x l Hx _ IH]; intros ids; simpl; [done|].
  unfold tbind at 1. specialize (Hx ids).
  destruct (f x ids) as [y ids1] eqn:Hf. simpl in Hx. subst ids1.
  unfold tbind at 1. rewrite IH. done.
Qed.

Lemma collectSchemableIds_disjoint (ids : Scope) (node : OperationNode) :
  collectSchemableIds ids node ## ids.
Proof. rewrite collectSchemableIds_spec. set_solver. Qed.

Lemma lookupProp_assignProp_eq k x props :
  lookupProp k (assignProp k x props) = x.
Proof.
  induction props as [|[k' y] props IH]; simpl.
  - by rewrite String.eqb_refl.
  - destruct (String.eqb k k') eqn:E; simpl; rewrite E; done.
Qed.

Lemma lookupProp_assignProp_ne k k' x props :
  k ≠ k' → lookupProp k (assignProp k' x props) = lookupProp k props.
Proof.
  intros Hne. induction props as [|[k2 y] props IH]; simpl.
  - by apply String.eqb_neq in Hne as ->.
  - destruct (String.eqb k' k2) eqn:E; simpl.
    + apply String.eqb_eq in E as <-. by apply String.eqb_neq in Hne as ->.
    + by rewrite IH.
Qed.

Section TransformerFacts.
Variable schema : string.

Abbreviation transformNode := (WithSchemaTransformer.transformNode schema).
Abbreviation derives := (derived schema).

Lemma transformChildren_restores kind props :
  Forall (λ kv : string * OperationNode, ∀ ids, (transformNode kv.2 ids).2 = ids) props →
  ∀ ids,
    OperationNodeTransformer.transformChildren transformNode kind props ids =
    (VNode kind (map (λ kv, (kv.1, (transformNode kv.2 ids).1)) props), ids).
Proof.
  intros IH ids. unfold OperationNodeTransformer.transformChildren, tbind.
  rewrite mapT_restores.
  - simpl. unfold tret. do 2 f_equal. apply map_ext. intros [k x]. simpl.
    by destruct (transformNode x ids).
  - eapply Forall_impl; [exact IH|]. intros [k x] Hx ids'. simpl in *.
    specialize (Hx ids'). by destruct (transformNode x ids').
Qed.

Lemma super_transformNodeImpl_restores kind props :
  Forall (λ kv : string * OperationNode, ∀ ids, (transformNode kv.2 ids).2 = ids) props →
  ∀ ids,
    WithSchemaTransformer.super_transformNodeImpl schema transformNode kind props ids =
    (let transformed := VNode kind (map (λ kv, (kv.1, (transformNode kv.2 ids).1)) props) in
     if String.eqb kind "SchemableIdentifierNode"
     then qualified schema ids (VNode kind props) transformed
     else transformed, ids).
Proof.
  intros IH ids. unfold WithSchemaTransformer.super_transformNodeImpl.
  destruct (String.eqb kind "SchemableIdentifierNode").
  - unfold WithSchemaTransformer.transformSchemableIdentifier,
      OperationNodeTransformer.transformSchemableIdentifier, tbind.
    rewrite (transformChildren_restores _ _ IH). unfold qualified. simpl.
    destruct (_ || _); done.
  - by rewrite (transformChildren_restores _ _ IH).
Qed.

Lemma transformNodeImpl_restores kind props :
  Forall (λ kv : string * OperationNode, ∀ ids, (transformNode kv.2 ids).2 = ids) props →
  ∀ ids,
    WithSchemaTransformer.transformNodeImpl schema transformNode kind props ids =
    (let ids1 := innerScope ids (VNode kind props) in
     let transformed := VNode kind (map (λ kv, (kv.1, (transformNode kv.2 ids1).1)) props) in
     if String.eqb kind "SchemableIdentifierNode"
     then qualified schema ids1 (VNode kind props) transformed
     else transformed, ids).
Proof.
  intros IH ids. unfold WithSchemaTransformer.transformNodeImpl, innerScope.
  destruct (isRootOperationNode (VNode kind props)); simpl.
  - rewrite (super_transformNodeImpl_restores _ _ IH), addAll_union, deleteAll_difference.
    simpl. f_equal.
    pose proof (collectSchemableIds_disjoint ids (VNode kind props)). set_solver.
  - by rewrite (super_transformNodeImpl_restores _ _ IH).
Qed.

Lemma transformNode_restores (node : OperationNode) :
  ∀ ids, (transformNode node ids).2 = ids.
Proof.
  induction node as [p|items IH|kind props IH] using OperationNode_nested_ind;
    intros ids.
  - done.
  - simpl. unfold OperationNodeTransformer.transformNodeList, tbind.
    by rewrite (mapT_restores _ _ IH).
  - simpl. by rewrite (transformNodeImpl_restores _ _ IH).
Qed.

Lemma transformNode_props_restore (props : list (string * OperationNode)) :
  Forall (λ kv : string * OperationNode, ∀ ids, (transformNode kv.2 ids).2 = ids) props.
Proof. apply Forall_forall. intros kv _. apply transformNode_restores. Qed.

Lemma transformNode_applied ids node :
  transformNode node ids = (applied schema ids node, ids).
Proof.
  unfold applied. pose proof (transformNode_restores node ids).
  by destruct (transformNode node ids); simplify_eq/=.
Qed.

Lemma applied_VArray ids items :
  applied schema ids (VArray items) = VArray (map (applied schema ids) items).
Proof.
  unfold applied. simpl.
  unfold OperationNodeTransformer.transformNodeList, tbind.
  rewrite mapT_restores; [reflexivity|].
  apply Forall_forall. intros x _. apply transformNode_restores.
Qed.

Lemma applied_VNode ids kind props :
  applied schema ids (VNode kind props) =
  let ids1 := innerScope ids (VNode kind props) in
  let transformed := VNode kind (appliedProps schema ids1 props) in
  if String.eqb kind "SchemableIdentifierNode"
  then qualified schema ids1 (VNode kind props) transformed
  else transformed.
Proof.
  unfold applied. simpl.
  by rewrite (transformNodeImpl_restores _ _ (transformNode_props_restore props)).
Qed.

(** ** A second run sees the same names *)

Lemma lookupProp_appliedProps k ids props :
  lookupProp k (appliedProps schema ids props) = applied schema ids (lookupProp k props).
Proof.
  induction props as [|[k' y] props IH]; simpl; [done|].
  destruct (String.eqb k k'); done.
Qed.

Lemma assignProp_appliedProps k x ids props :
  appliedProps schema ids (assignProp k x props) =
  assignProp k (applied schema ids x) (appliedProps schema ids props).
Proof.
  induction props as [|[k' y] props IH]; simpl; [done|].
  destruct (String.eqb k k'); simpl; [done|]. by rewrite IH.
Qed.

Lemma applied_IdentifierNode ids name :
  applied schema ids (IdentifierNode.create name) = IdentifierNode.create name.
Proof. unfold IdentifierNode.create. by rewrite applied_VNode. Qed.

Lemma derived_VPrim p y : derives (VPrim p) y → y = VPrim p.
Proof. by intros [ids ->]. Qed.

Lemma derived_VArray items y :
  derives (VArray items) y → ∃ items', y = VArray items' ∧ Forall2 derives items items'.
Proof.
  intros [ids ->]. rewrite applied_VArray. eexists; split; [done|].
  apply Forall2_fmap_r, Forall_Forall2_diag, Forall_forall. intros x _. by exists ids.
Qed.

Lemma derived_VNode kind props y :
  derives (VNode kind props) y →
  ∃ props', y = VNode kind props' ∧
    ∀ k, k ≠ "schema" → derives (lookupProp k props) (lookupProp k props').
Proof.
  intros [ids ->]. rewrite applied_VNode. simpl.
  set (ids1 := innerScope ids (VNode kind props)).
  destruct (String.eqb kind "SchemableIdentifierNode").
  - unfold qualified. destruct (_ || _); simpl.
    + eexists; split; [done|]. intros k _. exists ids1. apply lookupProp_appliedProps.
    + eexists; split; [done|]. intros k Hk. exists ids1.
      rewrite lookupProp_assignProp_ne by done. apply lookupProp_appliedProps.
  - eexists; split; [done|]. intros k _. exists ids1. apply lookupProp_appliedProps.
Qed.

Lemma derived_getProp k x y :
  k ≠ "schema" → derives x y → derives (getProp k x) (getProp k y).
Proof.
  intros Hk H. destruct x as [p|items|kind props].
  - apply derived_VPrim in H as ->. by exists ∅.
  - apply derived_VArray in H as (items' & -> & _). by exists ∅.
  - apply derived_VNode in H as (props' & -> & H). by apply H.
Qed.

Lemma derived_kindIs k x y : derives x y → kindIs k y = kindIs k x.
Proof.
  intros H. destruct x as [p|items|kind props].
  - by apply derived_VPrim in H as ->.
  - by apply derived_VArray in H as (items' & -> & _).
  - by apply derived_VNode in H as (props' & -> & _).
Qed.

Lemma derived_stringProp k x y :
  k ≠ "schema" → derives x y → stringProp k y = stringProp k x.
Proof.
  intros Hk H. apply (derived_getProp k) in H; [|done]. unfold stringProp.
  destruct (getProp k x) as [p|items|kind props].
  - by apply derived_VPrim in H as ->.
  - by apply derived_VArray in H as (items' & -> & _).
  - by apply derived_VNode in H as (props' & -> & _).
Qed.

Lemma derived_arrayItems x y :
  derives x y → Forall2 derives (arrayItems x) (arrayItems y).
Proof.
  intros H. destruct x as [p|items|kind props].
  - apply derived_VPrim in H as ->. constructor.
  - by apply derived_VArray in H as (items' & -> & H).
  - apply derived_VNode in H as (props' & -> & _). constructor.
Qed.

Lemma derived_identifierName x y : derives x y → identifierName y = identifierName x.
Proof.
  intros H. unfold identifierName.
  apply derived_stringProp; [done|]. by apply derived_getProp.
Qed.

Lemma derived_tableNameOf x y : derives x y → tableNameOf y = tableNameOf x.
Proof.
  intros H. unfold tableNameOf, underlyingTable, TableNode.is_, AliasNode.is_.
  assert (Hn : derives (getProp "node" x) (getProp "node" y))
    by (by apply derived_getProp).
  rewrite !(derived_kindIs _ _ _ H), (derived_kindIs _ _ _ Hn).
  destruct (kindIs "TableNode" x); simpl.
  - apply derived_identifierName. by apply derived_getProp.
  - destruct (kindIs "AliasNode" x); [|done].
    destruct (kindIs "TableNode" (getProp "node" x)); [|done]. simpl.
    apply derived_identifierName. by apply derived_getProp.
Qed.

Lemma derived_cteName x y : derives x y → cteName y = cteName x.
Proof.
  intros H. unfold cteName. apply derived_identifierName.
  do 3 (apply derived_getProp; [done|]). done.
Qed.

Lemma derived_omap (f : OperationNode → option string) l l' :
  (∀ x y, derives x y → f y = f x) →
  Forall2 derives l l' → omap f l' = omap f l.
Proof.
  intros Hf. induction 1 as [|x y l l' Hxy _ IH]; csimpl; [done|].
  by rewrite (Hf _ _ Hxy), IH.
Qed.

Lemma derived_introducedTableNames x y :
  derives x y → introducedTableNames y = introducedTableNames x.
Proof.
  intros H. unfold introducedTableNames, ownName, SchemableIdentifierNode.is_.
  assert (Hname : derives (getProp "name" x) (getProp "name" y))
    by (by apply derived_getProp).
  rewrite (derived_kindIs _ _ _ Hname), (derived_identifierName _ _ Hname).
  rewrite (derived_tableNameOf (getProp "into" x) (getProp "into" y))
    by (by apply derived_getProp).
  rewrite (derived_tableNameOf (getProp "table" x) (getProp "table" y))
    by (by apply derived_getProp).
  rewrite (derived_omap tableNameOf
             (arrayItems (getProp "froms" (getProp "from" x)))
             (arrayItems (getProp "froms" (getProp "from" y)))).
  2: apply derived_tableNameOf.
  2: { apply derived_arrayItems. do 2 (apply derived_getProp; [done|]). done. }
  rewrite (derived_omap (λ join, tableNameOf (getProp "table" join))
             (arrayItems (getProp "joins" x)) (arrayItems (getProp "joins" y))).
  - done.
  - intros a b Hab. apply derived_tableNameOf. by apply derived_getProp.
  - apply derived_arrayItems. by apply derived_getProp.
Qed.

Lemma derived_withBoundNames x y :
  derives x y → withBoundNames y = withBoundNames x.
Proof.
  intros H. unfold withBoundNames. apply derived_omap; [apply derived_cteName|].
  apply derived_arrayItems. do 2 (apply derived_getProp; [done|]). done.
Qed.

Lemma derived_collectSchemableIds ids x y :
  derives x y → collectSchemableIds ids y = collectSchemableIds ids x.
Proof.
  intros H. rewrite !collectSchemableIds_spec.
  by rewrite (derived_introducedTableNames _ _ H), (derived_withBoundNames _ _ H).
Qed.

Lemma derived_innerScope ids x y :
  derives x y → innerScope ids y = innerScope ids x.
Proof.
  intros H. unfold innerScope. rewrite (derived_collectSchemableIds _ _ _ H).
  replace (isRootOperationNode y) with (isRootOperationNode x); [done|].
  destruct x as [p|items|kind props].
  - by apply derived_VPrim in H as ->.
  - by apply derived_VArray in H as (items' & -> & _).
  - by apply derived_VNode in H as (props' & -> & _).
Qed.

Lemma applied_idempotent (node : OperationNode) :
  ∀ ids, applied schema ids (applied schema ids node) = applied schema ids node.
Proof.
  induction node as [p|items IH|kind props IH] using OperationNode_nested_ind;
    intros ids.
  - done.
  - rewrite !applied_VArray. f_equal. rewrite <- list_fmap_compose.
    apply Forall_fmap_ext_1. eapply Forall_impl; [exact IH|]. intros x Hx. apply Hx.
  - assert (Hprops : ∀ ids1,
        appliedProps schema ids1 (appliedProps schema ids1 props) =
        appliedProps schema ids1 props).
    { intros ids1. unfold appliedProps. rewrite <- list_fmap_compose.
      apply Forall_fmap_ext_1. eapply Forall_impl; [exact IH|].
      intros [k x] Hx. simpl in *. by rewrite Hx. }
    assert (Hd : derives (VNode kind props) (applied schema ids (VNode kind props)))
      by (by exists ids).
    pose proof (derived_innerScope ids _ _ Hd) as Hscope.
    pose proof (derived_identifierName _ _ Hd) as Hname.
    revert Hscope Hname. rewrite applied_VNode. simpl.
    set (ids1 := innerScope ids (VNode kind props)).
    destruct (String.eqb kind "SchemableIdentifierNode") eqn:Hkind.
    + unfold qualified.
      destruct (truthy _ || _) eqn:Hcond; simpl; intros Hscope Hname.
      * rewrite applied_VNode, Hkind. simpl. rewrite Hscope. fold ids1.
        rewrite Hprops. unfold qualified. rewrite Hname, Hcond. done.
      * rewrite applied_VNode, Hkind. simpl. rewrite Hscope. fold ids1.
        rewrite assignProp_appliedProps, applied_IdentifierNode, Hprops.
        unfold qualified. simpl. by rewrite lookupProp_assignProp_eq.
    + intros Hscope _. rewrite applied_VNode, Hkind. simpl. rewrite Hscope.
      fold ids1. by rewrite Hprops.
Qed.
End TransformerFacts.

(** ** The transformer on the statements of the specification *)

(** The WITH-bound [foo] stays bare, [bar] inside the common table
    expression is qualified. *)
Example cte_exclusion :
  WithSchemaTransformer.run "s" (Sample.withFooSelectFoo (Sample.table "foo") []) =
  VNode "SelectQueryNode"
    [("with",
      Sample.with_
        [Sample.commonTableExpression (Sample.table "foo")
           (VNode "SelectQueryNode"
              [("from", Sample.from [Sample.qualifiedTable "s" "bar"])])]);
     ("from", Sample.from [Sample.table "foo"])].
Proof. vm_compute. reflexivity. Qed.

(** FROM and JOIN tables are qualified wherever the statement names
    them; the columns are left alone. *)
Example join_targets_qualified :
  WithSchemaTransformer.run "s" (Sample.selectJoin (Sample.table "a") (Sample.table "b")) =
  Sample.selectJoin (Sample.qualifiedTable "s" "a") (Sample.qualifiedTable "s" "b").
Proof. vm_compute. reflexivity. Qed.

(** The table of the subquery and the table of the outer query are
    qualified, each by its own root. *)
Example scope_isolation :
  WithSchemaTransformer.run "s"
    (Sample.selectFromSubquery (Sample.table "t") (Sample.table "t2")) =
  Sample.selectFromSubquery (Sample.qualifiedTable "s" "t") (Sample.qualifiedTable "s" "t2").
Proof. vm_compute. reflexivity. Qed.

(** ** The claims about the schema-qualification transformer *)

(** C1.  A name bound by a statement's own WITH clause should never be
    qualified inside that statement.  The transformer qualifies it in two
    situations: in [select * from foo where exists (with foo as (select *
    from bar) select * from foo)] the enclosing query has put [foo] in
    scope, and the inner statement's reference to its own [foo] (and the
    name of the common table expression itself) comes out as [s.foo]; in
    [with foo as (select * from bar) select * from foo where exists
    (select * from foo)] the nested subquery collects [foo] anew and its
    reference to the enclosing statement's [foo] comes out as [s.foo]. *)
Theorem with_bound_name_qualified :
  withBoundNames (Sample.withFooSelectFoo (Sample.table "foo") []) = ["foo"]
  ∧ WithSchemaTransformer.run "s" Sample.enclosingFoo =
    VNode "SelectQueryNode"
      [("from", Sample.from [Sample.qualifiedTable "s" "foo"]);
       ("where",
        Sample.where_ (Sample.exists_
          (VNode "SelectQueryNode"
             [("with",
               Sample.with_
                 [Sample.commonTableExpression (Sample.qualifiedTable "s" "foo")
                    (VNode "SelectQueryNode"
                       [("from", Sample.from [Sample.qualifiedTable "s" "bar"])])]);
              ("from", Sample.from [Sample.qualifiedTable "s" "foo"])])))]
  ∧ WithSchemaTransformer.run "s" Sample.nestedFoo =
    VNode "SelectQueryNode"
      [("with",
        Sample.with_
          [Sample.commonTableExpression (Sample.table "foo")
             (VNode "SelectQueryNode"
                [("from", Sample.from [Sample.qualifiedTable "s" "bar"])])]);
       ("from", Sample.from [Sample.table "foo"]);
       ("where",
        Sample.where_ (Sample.exists_
          (VNode "SelectQueryNode"
             [("from", Sample.from [Sample.qualifiedTable "s" "foo"])])))].
Proof. split; [|split]; vm_compute; reflexivity. Qed.

(** C2.  [transformNodeImpl] leaves the scope as it found it.  On a
    root node the names collected for it, none of which is in scope
    already, are added: the node is handed to the engine under the scope
    extended by exactly these names, in which the bindings of the
    enclosing level are still present; the engine hands the extended
    scope back, and deleting the collected names gives the scope of the
    enclosing level again.  Any other node goes to the engine under the
    scope as it is. *)
Theorem transformNodeImpl_scope_balanced (schema kind : string)
    (props : list (string * OperationNode)) (ids : Scope) :
  let node := VNode kind props in
  let tables := collectSchemableIds ids node in
  let this_transformNode := WithSchemaTransformer.transformNode schema in
  (WithSchemaTransformer.transformNodeImpl schema this_transformNode kind props ids).2
    = ids
  ∧ (isRootOperationNode node = true →
     tables ## ids
     ∧ WithSchemaTransformer.addAll tables ids = ids ∪ tables
     ∧ WithSchemaTransformer.transformNodeImpl schema this_transformNode kind props ids
       = ((WithSchemaTransformer.super_transformNodeImpl schema this_transformNode
             kind props (ids ∪ tables)).1,
          WithSchemaTransformer.deleteAll tables (ids ∪ tables))
     ∧ (WithSchemaTransformer.super_transformNodeImpl schema this_transformNode
          kind props (ids ∪ tables)).2 = ids ∪ tables
     ∧ WithSchemaTransformer.deleteAll tables (ids ∪ tables) = ids
     ∧ ids ⊆ ids ∪ tables)
  ∧ (isRootOperationNode node = false →
     WithSchemaTransformer.transformNodeImpl schema this_transformNode kind props ids
     = WithSchemaTransformer.super_transformNodeImpl schema this_transformNode
         kind props ids).
Proof.
  intros node tables this_transformNode.
  pose proof (collectSchemableIds_disjoint ids node) as Hdisj. fold tables in Hdisj.
  pose proof (transformNode_props_restore schema props) as Hprops.
  assert (Hadd : WithSchemaTransformer.addAll tables ids = ids ∪ tables)
    by (rewrite addAll_union; set_solver).
  assert (Hdelete : WithSchemaTransformer.deleteAll tables (ids ∪ tables) = ids)
    by (rewrite deleteAll_difference; set_solver).
  split; [|split].
  - subst this_transformNode. by rewrite (transformNodeImpl_restores schema _ _ Hprops).
  - intros Hroot. repeat split; try done.
    + unfold WithSchemaTransformer.transformNodeImpl. fold node. rewrite Hroot. simpl.
      fold tables. rewrite Hadd.
      subst this_transformNode.
      by rewrite (super_transformNodeImpl_restores schema _ _ Hprops).
    + subst this_transformNode.
      by rewrite (super_transformNodeImpl_restores schema _ _ Hprops).
    + set_solver.
  - intros Hroot. unfold WithSchemaTransformer.transformNodeImpl. fold node.
    by rewrite Hroot.
Qed.

(** The root [select * from person] entered with [pet] in scope, and the
    table [person] on its own under the same scope. *)
Lemma transformNodeImpl_scope_balanced_witness :
  WithSchemaTransformer.transformNodeImpl "s" (WithSchemaTransformer.transformNode "s")
    "SelectQueryNode" [("from", Sample.from [Sample.table "person"])] {[ "pet" ]}
  = (VNode "SelectQueryNode" [("from", Sample.from [Sample.qualifiedTable "s" "person"])],
     {[ "pet" ]})
  ∧ WithSchemaTransformer.transformNodeImpl "s" (WithSchemaTransformer.transformNode "s")
      "TableNode" [("table", Sample.schemableIdentifier "person")] {[ "pet" ]}
    = (Sample.table "person", {[ "pet" ]}).
Proof.
  split.
  - destruct (transformNodeImpl_scope_balanced "s" "SelectQueryNode"
                [("from", Sample.from [Sample.table "person"])] {[ "pet" ]})
      as (_ & Hroot & _).
    destruct (Hroot eq_refl) as (_ & _ & -> & _ & -> & _).
    f_equal.
  - destruct (transformNodeImpl_scope_balanced "s" "TableNode"
                [("table", Sample.schemableIdentifier "person")] {[ "pet" ]})
      as (_ & _ & Hother).
    rewrite (Hother eq_refl). vm_compute. reflexivity.
Defined.

Lemma scalarProps_applied schema ids props :
  scalarProps props = true → appliedProps schema ids props = props.
Proof.
  induction props as [|[k v] props IH]; simpl; [done|].
  intros [Hv Hprops]%andb_prop. rewrite IH by done.
  by destruct v.
Qed.

Lemma identifierOrScalar_applied schema ids v :
  identifierOrScalar v = true → applied schema ids v = v.
Proof.
  destruct v as [p|items|kind props]; simpl; [done..|].
  intros [Hk Hprops]%andb_prop. apply String.eqb_eq in Hk as ->.
  rewrite applied_VNode. simpl. by rewrite scalarProps_applied.
Qed.

Lemma identifierOrScalar_appliedProps schema ids props :
  forallb (λ kv, identifierOrScalar kv.2) props = true →
  appliedProps schema ids props = props.
Proof.
  induction props as [|[k v] props IH]; simpl; [done|].
  intros [Hv Hprops]%andb_prop. rewrite IH by done.
  by rewrite identifierOrScalar_applied.
Qed.

(** C3.  A well-formed schemable identifier is returned unchanged when
    it carries a schema; when it carries none and its name is in scope
    the result is the node with [schema] set to the identifier of the
    configured schema (and nothing else changed); otherwise it is
    returned unchanged.  The scope is untouched. *)
Theorem transformSchemableIdentifier_cases (schema : string) (ids : Scope)
    (node : OperationNode) :
  wellFormedSchemableIdentifier node = true →
  WithSchemaTransformer.transformNode schema node ids =
    (if truthy (getProp "schema" node) then node
     else if has ids (identifierName node)
          then setProp "schema" (IdentifierNode.create schema) node
          else node, ids)
  ∧ getProp "schema" (setProp "schema" (IdentifierNode.create schema) node)
    = IdentifierNode.create schema
  ∧ ∀ k, k ≠ "schema" →
      getProp k (setProp "schema" (IdentifierNode.create schema) node) = getProp k node.
Proof.
  destruct node as [p|items|kind props]; [done..|].
  intros [[Hk Hprops]%andb_prop Hid]%andb_prop.
  split; [|split].
  - rewrite transformNode_applied, applied_VNode. simpl. rewrite Hk.
    apply String.eqb_eq in Hk as ->. unfold innerScope. simpl.
    rewrite identifierOrScalar_appliedProps by done.
    unfold qualified. simpl.
    destruct (truthy (lookupProp "schema" props)); simpl; [done|].
    by destruct (has ids _).
  - apply lookupProp_assignProp_eq.
  - intros k Hne. by apply lookupProp_assignProp_ne.
Qed.

(** The bare identifier [person], with [person] in scope and the schema
    [public]. *)
Lemma transformSchemableIdentifier_cases_witness :
  wellFormedSchemableIdentifier (Sample.schemableIdentifier "person") = true
  ∧ WithSchemaTransformer.transformNode "public"
      (Sample.schemableIdentifier "person") {[ "person" ]} =
    (VNode "SchemableIdentifierNode"
       [("identifier", IdentifierNode.create "person");
        ("schema", IdentifierNode.create "public")], {[ "person" ]}).
Proof.
  split; [reflexivity|].
  exact (proj1 (transformSchemableIdentifier_cases "public" {[ "person" ]}
                  (Sample.schemableIdentifier "person") eq_refl)).
Defined.

(** C4, as stated, fails where a name is already in scope: entered with
    [person] in scope, [select * from person] collects nothing, while the
    introduced names minus the WITH-bound ones are [person]. *)
Lemma collectSchemableIds_not_spec_set :
  collectSchemableIds {[ "person" ]} Sample.selectFromPerson
  ≠ specCollectedTables Sample.selectFromPerson.
Proof.
  intros Heq.
  assert (Hin : "person" ∈ specCollectedTables Sample.selectFromPerson)
    by (vm_compute; set_solver).
  rewrite <- Heq, collectSchemableIds_spec in Hin. set_solver.
Qed.

(** C4, amended.  The set collected on entering a root node is exactly
    the names of its own name field, FROM list, INTO target, TABLE target
    and JOIN tables (each through an optional Alias down to a Table) that
    are not already in the scope set, minus the names its WITH clause
    binds. *)
Theorem collectSchemableIds_exact (ids : Scope) (node : OperationNode) :
  collectSchemableIds ids node =
    (list_to_set (introducedTableNames node) ∖ ids)
      ∖ list_to_set (withBoundNames node)
  ∧ collectSchemableIds ids node = specCollectedTables node ∖ ids.
Proof.
  rewrite collectSchemableIds_spec. unfold specCollectedTables.
  split; [done|set_solver].
Qed.

(** C5.  Running the transformer a second time with the same schema
    changes nothing. *)
Theorem withSchema_idempotent (schema : string) (node : OperationNode) :
  WithSchemaTransformer.run schema (WithSchemaTransformer.run schema node)
  = WithSchemaTransformer.run schema node.
Proof. apply (applied_idempotent schema node ∅). Qed.

(** ** The claims about the expression normalizer *)

Lemma calls_app (tr1 tr2 : list Event) : calls (tr1 ++ tr2) = (calls tr1 ++ calls tr2)%list.
Proof. apply omap_app. Qed.

Lemma created_app (tr1 tr2 : list Event) :
  created (tr1 ++ tr2) = (created tr1 ++ created tr2)%list.
Proof. apply omap_app. Qed.

Lemma callToOperationNode_calls (obj : JsValue) (tr : list Event) :
  calls (callToOperationNode obj tr).2 = calls tr
  ∧ created (callToOperationNode obj tr).2 = created tr.
Proof.
  unfold callToOperationNode. destruct (toOperationNode obj); simpl; [|done].
  rewrite calls_app, created_app. simpl. by rewrite !app_nil_r.
Qed.

Lemma callToOperationNode_no_Error (obj : JsValue) (tr : list Event) (message : string) :
  (callToOperationNode obj tr).1 ≠ Throw (Error_ message).
Proof. unfold callToOperationNode. by destruct (toOperationNode obj). Qed.

Lemma isOperationNodeSource_true (obj : JsValue) :
  isOperationNodeSource obj = true ↔
  isObject obj = true ∧ ∃ node, toOperationNode obj = Some node.
Proof.
  unfold isOperationNodeSource. destruct (isObject obj); simpl; [|naive_solver].
  destruct (toOperationNode obj); naive_solver.
Qed.

Lemma isFunction_true (obj : JsValue) :
  isFunction obj = true ↔ ∃ f, call obj = Some f.
Proof.
  unfold isFunction. destruct (call obj); split; eauto; try done.
  by intros [? ?].
Qed.

(** A function is no node source. *)
Lemma isFunction_not_source (obj : JsValue) :
  isFunction obj = true → isOperationNodeSource obj = false.
Proof. by destruct obj. Qed.

(** Both entry points, case by case. *)
Lemma parse_source (exp : JsValue) (tr : list Event) (node : OperationNode) :
  isOperationNodeSource exp = true →
  toOperationNode exp = Some node →
  parseExpression exp tr = (Normal node, (tr ++ [EvToOperationNode exp])%list)
  ∧ parseAliasedExpression exp tr = (Normal node, (tr ++ [EvToOperationNode exp])%list).
Proof.
  intros Hs H. unfold parseExpression, parseAliasedExpression, callToOperationNode.
  by rewrite Hs, H.
Qed.

Lemma parse_factory (exp : JsValue) (tr : list Event) (f : ExpressionBuilder → JsValue) :
  isOperationNodeSource exp = false → call exp = Some f →
  let eb := fresh (buildersOf tr) in
  let tr' := (tr ++ [EvCreateExpressionBuilder eb; EvCall exp eb])%list in
  (eb ∉ buildersOf tr)
  ∧ parseExpression exp tr = callToOperationNode (f eb) tr'
  ∧ parseAliasedExpression exp tr = callToOperationNode (f eb) tr'.
Proof.
  intros Hs Hf eb tr'. split; [apply is_fresh|].
  unfold parseExpression, parseAliasedExpression, isFunction, jbind,
    createExpressionBuilder, callFunction.
  rewrite Hs, Hf. subst tr' eb. by rewrite <- !app_assoc.
Qed.

Lemma parse_invalid (exp : JsValue) (tr : list Event) :
  isOperationNodeSource exp = false → isFunction exp = false →
  parseExpression exp tr =
    (match JSON_stringify exp with
     | Some text => Throw (Error_ ("invalid expression: " ++ text))
     | None => Throw TypeError
     end, tr)
  ∧ parseAliasedExpression exp tr =
    (match JSON_stringify exp with
     | Some text => Throw (Error_ ("invalid aliased expression: " ++ text))
     | None => Throw TypeError
     end, tr).
Proof.
  intros Hs Hf. unfold parseExpression, parseAliasedExpression, throwInvalid.
  rewrite Hs, Hf. by destruct (JSON_stringify exp).
Qed.

(** C6.  An input that satisfies the node-source protocol yields
    exactly the node of its [toOperationNode] accessor.  An input that is
    a function is invoked exactly once, with a builder handle constructed
    for this call and seen in no earlier step, and the node of its return
    value is returned. *)
Theorem parseExpression_dispatch (exp : JsValue) (tr : list Event) :
  (isOperationNodeSource exp = true →
     ∃ node, toOperationNode exp = Some node
       ∧ parseExpression exp tr = (Normal node, (tr ++ [EvToOperationNode exp])%list))
  ∧ (isFunction exp = true →
     ∃ f eb, call exp = Some f
       ∧ (eb ∉ buildersOf tr)
       ∧ parseExpression exp tr =
           callToOperationNode (f eb)
             (tr ++ [EvCreateExpressionBuilder eb; EvCall exp eb])%list
       ∧ created (parseExpression exp tr).2 = (created tr ++ [eb])%list
       ∧ calls (parseExpression exp tr).2 = (calls tr ++ [(exp, eb)])%list
       ∧ ∀ node, toOperationNode (f eb) = Some node →
           (parseExpression exp tr).1 = Normal node).
Proof.
  split.
  - intros Hs. destruct (proj1 (isOperationNodeSource_true exp) Hs) as [_ [node Hnode]].
    exists node. split; [done|]. by apply parse_source.
  - intros Hfun. pose proof (isFunction_not_source exp Hfun) as Hs.
    apply isFunction_true in Hfun as [f Hf].
    destruct (parse_factory exp tr f Hs Hf) as (Hfresh & Hparse & _).
    exists f, (fresh (buildersOf tr)). rewrite Hparse.
    destruct (callToOperationNode_calls (f (fresh (buildersOf tr)))
      (tr ++ [EvCreateExpressionBuilder (fresh (buildersOf tr));
              EvCall exp (fresh (buildersOf tr))])%list) as [-> ->].
    rewrite calls_app, created_app. repeat split; try done.
    intros node Hnode. unfold callToOperationNode. by rewrite Hnode.
Qed.

(** A node source; a factory returning it; a function that carries an
    accessor of its own and is a function all the same. *)
Lemma parseExpression_dispatch_witness :
  (∃ node, toOperationNode Sample.source = Some node
     ∧ parseExpression Sample.source [] = (Normal node, [EvToOperationNode Sample.source]))
  ∧ (∃ f eb, call Sample.factory = Some f
       ∧ (eb ∉ buildersOf [])
       ∧ parseExpression Sample.factory [] =
           callToOperationNode (f eb)
             [EvCreateExpressionBuilder eb; EvCall Sample.factory eb]
       ∧ created (parseExpression Sample.factory []).2 = [eb]
       ∧ calls (parseExpression Sample.factory []).2 = [(Sample.factory, eb)]
       ∧ ∀ node, toOperationNode (f eb) = Some node →
           (parseExpression Sample.factory []).1 = Normal node)
  ∧ (∃ f eb, call Sample.callableSource = Some f
       ∧ (eb ∉ buildersOf [])
       ∧ parseExpression Sample.callableSource [] =
           callToOperationNode (f eb)
             [EvCreateExpressionBuilder eb; EvCall Sample.callableSource eb]
       ∧ created (parseExpression Sample.callableSource []).2 = [eb]
       ∧ calls (parseExpression Sample.callableSource []).2 = [(Sample.callableSource, eb)]
       ∧ ∀ node, toOperationNode (f eb) = Some node →
           (parseExpression Sample.callableSource []).1 = Normal node).
Proof.
  split; [|split].
  - exact (proj1 (parseExpression_dispatch Sample.source []) eq_refl).
  - exact (proj2 (parseExpression_dispatch Sample.factory []) eq_refl).
  - exact (proj2 (parseExpression_dispatch Sample.callableSource []) eq_refl).
Defined.




(** C8, as stated, fails on a plain node source: the aliased entry point
    accepts it and returns its node, a Table node, as it is. *)
Lemma parseAliasedExpression_plain_source_not_alias :
  isOperationNodeSource Sample.source = true
  ∧ parseAliasedExpression Sample.source [] =
    (Normal (Sample.table "person"), [EvToOperationNode Sample.source])
  ∧ AliasNode.is_ (Sample.table "person") = false.
Proof. repeat split. Qed.

(** C8, amended.  [parseAliasedExpression] checks and builds nothing:
    for an input of an accepted shape it returns exactly what the
    [toOperationNode] accessor of the source yields, the source being the
    input itself or what it returns as a factory.  The result is the
    Alias node wrapping the node of the inner expression and the
    identifier node of the alias whenever that source keeps the contract
    of an aliased expression. *)
Theorem parseAliasedExpression_alias_node (exp source : JsValue) (tr : list Event) :
  resolvedSource exp (fresh (buildersOf tr)) = Some source →
  (parseAliasedExpression exp tr).1 =
    match toOperationNode source with
    | Some node => Normal node
    | None => Throw TypeError
    end
  ∧ (AliasedExpressionContract source →
     ∃ inner node a,
       expression source = Some inner
       ∧ toOperationNode inner = Some node
       ∧ alias source = Some a
       ∧ (parseAliasedExpression exp tr).1 =
           Normal (AliasNode.create node (IdentifierNode.create a))).
Proof.
  intros Hres.
  assert (Hparse : (parseAliasedExpression exp tr).1 =
            match toOperationNode source with
            | Some node => Normal node
            | None => Throw TypeError
            end).
  { unfold resolvedSource in Hres.
    destruct (isOperationNodeSource exp) eqn:Hs.
    - injection Hres as ->.
      destruct (proj1 (isOperationNodeSource_true source) Hs) as [_ [node Hnode]].
      destruct (parse_source source tr node Hs Hnode) as [_ ->]. by rewrite Hnode.
    - destruct (call exp) as [f|] eqn:Hf; [|done]. injection Hres as <-.
      destruct (parse_factory exp tr f Hs Hf) as (_ & _ & ->).
      unfold callToOperationNode. by destruct (toOperationNode _). }
  split; [done|].
  intros [[aliasNode Halias] Hnode]. rewrite Hparse, Hnode, Halias.
  unfold aliasedExpressionNode in Halias.
  destruct (expression source) as [inner|]; [|done].
  destruct (alias source) as [a|]; [|done].
  destruct (toOperationNode inner) as [node|] eqn:Hinner; [|done].
  injection Halias as <-. by exists inner, node, a.
Qed.

(** A factory returning the table [person] aliased as [p]. *)
Lemma parseAliasedExpression_alias_node_witness :
  ∃ inner node a,
    expression Sample.aliased = Some inner
    ∧ toOperationNode inner = Some node
    ∧ alias Sample.aliased = Some a
    ∧ (parseAliasedExpression Sample.aliasedFactory []).1 =
        Normal (AliasNode.create node (IdentifierNode.create a)).
Proof.
  exact (proj2 (parseAliasedExpression_alias_node Sample.aliasedFactory Sample.aliased []
                  eq_refl)
           (conj (ex_intro _ _ eq_refl) eq_refl)).
Defined.

(** C10, as stated, fails on a function that carries a
    [toOperationNode] method: it does not pass the node-source check, it
    is invoked as a factory, and the accessor called is that of the value
    it returns (the table [person]), not its own (the table [pet]). *)
Lemma callable_with_accessor_is_invoked :
  isFunction Sample.callableSource = true
  ∧ toOperationNode Sample.callableSource = Some (Sample.table "pet")
  ∧ isOperationNodeSource Sample.callableSource = false
  ∧ parseExpression Sample.callableSource [] =
    (Normal (Sample.table "person"),
     [EvCreateExpressionBuilder (fresh (buildersOf []));
      EvCall Sample.callableSource (fresh (buildersOf []));
      EvToOperationNode Sample.source])
  ∧ parseAliasedExpression Sample.callableSource [] =
    parseExpression Sample.callableSource [].
Proof. repeat split. Qed.

(** C10, amended.  In both entry points the node-source check comes
    first, but no input passes both checks: a node source is an object
    and is never invoked, and a function, with or without a
    [toOperationNode] method of its own, is no node source and is invoked
    as a factory, the accessor called being that of its return value. *)
Theorem node_source_check_first (exp : JsValue) (tr : list Event) :
  (isOperationNodeSource exp = true →
     isFunction exp = false
     ∧ ∃ node, toOperationNode exp = Some node
         ∧ parseExpression exp tr = (Normal node, (tr ++ [EvToOperationNode exp])%list)
         ∧ parseAliasedExpression exp tr =
             (Normal node, (tr ++ [EvToOperationNode exp])%list)
         ∧ calls (tr ++ [EvToOperationNode exp]) = calls tr
         ∧ created (tr ++ [EvToOperationNode exp]) = created tr)
  ∧ (isFunction exp = true →
     isOperationNodeSource exp = false
     ∧ ∃ f eb, call exp = Some f
         ∧ parseExpression exp tr =
             callToOperationNode (f eb)
               (tr ++ [EvCreateExpressionBuilder eb; EvCall exp eb])%list
         ∧ parseAliasedExpression exp tr =
             callToOperationNode (f eb)
               (tr ++ [EvCreateExpressionBuilder eb; EvCall exp eb])%list).
Proof.
  split.
  - intros Hs. split.
    + destruct (isFunction exp) eqn:Hf; [|done].
      by rewrite (isFunction_not_source exp Hf) in Hs.
    + destruct (proj1 (isOperationNodeSource_true exp) Hs) as [_ [node Hnode]].
      exists node. destruct (parse_source exp tr node Hs Hnode) as [-> ->].
      rewrite calls_app, created_app. simpl. by rewrite !app_nil_r.
  - intros Hfun. pose proof (isFunction_not_source exp Hfun) as Hs.
    split; [done|]. apply isFunction_true in Hfun as [f Hf].
    destruct (parse_factory exp tr f Hs Hf) as (_ & -> & ->).
    by exists f, (fresh (buildersOf tr)).
Qed.

(** A node source, and a function that carries an accessor. *)
Lemma node_source_check_first_witness :
  isFunction Sample.source = false
  ∧ isOperationNodeSource Sample.callableSource = false.
Proof.
  split.
  - exact (proj1 (proj1 (node_source_check_first Sample.source []) eq_refl)).
  - exact (proj1 (proj2 (node_source_check_first Sample.callableSource []) eq_refl)).
Defined.

(** ** The claim about the raw compiled query *)

(** C9, as stated, fails on the form of the factory without [queryId]:
    its result carries none. *)
Lemma raw_without_queryId_has_none :
  ¬ is_Some (queryId (CompiledQueryWithoutQueryId.raw "select 1")).
Proof. by intros [id Hid]. Qed.

(** C9, amended.  For every string, both forms of [CompiledQuery.raw]
    give an empty parameter list, a Raw root node wrapping exactly that
    string, and that string as [sql].  The form with [queryId] carries an
    identifier generated by the call, not issued before, and not given
    again by the next call; the form without it carries none. *)
Theorem raw_compiled_query (text : string) (issued : gset QueryId) :
  let without := CompiledQueryWithoutQueryId.raw text in
  let compiled := (CompiledQueryWithQueryId.raw text issued).1 in
  let issued' := (CompiledQueryWithQueryId.raw text issued).2 in
  (parameters without = [] ∧ query without = RawNode.createWithSql text
   ∧ sql without = text ∧ queryId without = None)
  ∧ (parameters compiled = [] ∧ query compiled = RawNode.createWithSql text
     ∧ sql compiled = text)
  ∧ (isRootOperationNode (RawNode.createWithSql text) = true
     ∧ kindIs "RawNode" (RawNode.createWithSql text) = true
     ∧ getProp "sqlFragments" (RawNode.createWithSql text) = VArray [VString text])
  ∧ (∃ id, queryId compiled = Some id ∧ (id ∉ issued) ∧ issued' = {[ id ]} ∪ issued)
  ∧ queryId (CompiledQueryWithQueryId.raw text issued').1 ≠ queryId compiled.
Proof.
  simpl. repeat split.
  - exists (fresh issued). repeat split. apply is_fresh.
  - intros [= Heq]. pose proof (is_fresh ({[fresh issued]} ∪ issued)) as Hfresh.
    rewrite Heq in Hfresh. set_solver.
Qed.

(** * Further properties *)

(** ** What a run of the transformer changes *)

Lemma elem_of_union_map {A} (f : A → Scope) (l : list A) (x : A) (n : string) :
  x ∈ l → n ∈ f x → n ∈ ⋃ (map f l).
Proof.
  intros Hx Hn. apply elem_of_union_list. exists (f x). split; [|done].
  apply list_elem_of_fmap. by exists x.
Qed.

Lemma elem_of_union_map_inv {A} (f : A → Scope) (l : list A) (n : string) :
  n ∈ ⋃ (map f l) → ∃ x, x ∈ l ∧ n ∈ f x.
Proof.
  intros (X & HX & Hn)%elem_of_union_list.
  apply list_elem_of_fmap in HX as (x & -> & Hx). by exists x.
Qed.

Lemma innerScope_subseteq (ids : Scope) (node : OperationNode) :
  ids ⊆ innerScope ids node.
Proof. unfold innerScope. destruct (isRootOperationNode node); set_solver. Qed.

Lemma innerScope_introduced (ids : Scope) (kind : string)
    (props : list (string * OperationNode)) :
  innerScope ids (VNode kind props) ⊆
  ids ∪ (if isRootKind kind
         then list_to_set (introducedTableNames (VNode kind props)) else ∅).
Proof.
  unfold innerScope. simpl. destruct (isRootKind kind); [|set_solver].
  rewrite collectSchemableIds_spec. set_solver.
Qed.

Lemma schemableIdentifier_not_root (kind : string) :
  String.eqb kind "SchemableIdentifierNode" = true → isRootKind kind = false.
Proof. by intros ->%String.eqb_eq. Qed.

Lemma has_true (ids : Scope) (name : option string) :
  has ids name = true ↔ ∃ n, name = Some n ∧ n ∈ ids.
Proof.
  destruct name as [n|]; simpl.
  - rewrite bool_decide_eq_true. naive_solver.
  - naive_solver.
Qed.

Section RunFacts.
Variable schema : string.

Lemma applied_unchanged (node : OperationNode) :
  ∀ ids, bareNames node ## ids ∪ introducedAnywhere node →
         applied schema ids node = node.
Proof.
  induction node as [p|items IH|kind props IH] using OperationNode_nested_ind;
    intros ids Hdisj.
  - done.
  - rewrite applied_VArray. f_equal. rewrite <- (map_id items) at 2.
    apply Forall_fmap_ext_1, Forall_forall. intros x Hx.
    rewrite Forall_forall in IH. apply IH; [done|].
    simpl in Hdisj. intros n Hn Hin. apply (Hdisj n).
    + by eapply elem_of_union_map.
    + apply elem_of_union in Hin as [?|?]; [set_solver|].
      apply elem_of_union_r. by eapply elem_of_union_map.
  - rewrite applied_VNode. simpl.
    pose proof (innerScope_introduced ids kind props) as Hscope.
    set (ids1 := innerScope ids (VNode kind props)) in *.
    assert (Hprops : appliedProps schema ids1 props = props).
    { unfold appliedProps. rewrite <- (map_id props) at 2.
      apply Forall_fmap_ext_1, Forall_forall. intros [k x] Hx. simpl.
      rewrite Forall_forall in IH. rewrite (IH _ Hx); [done|]. simpl.
      simpl in Hdisj. intros n Hn Hin. apply (Hdisj n).
      - apply elem_of_union_r.
        by apply (elem_of_union_map (λ kv, bareNames kv.2) props (k, x)).
      - apply elem_of_union in Hin as [Hin|Hin].
        + apply Hscope in Hin. set_solver.
        + do 2 apply elem_of_union_r.
          by apply (elem_of_union_map (λ kv, introducedAnywhere kv.2) props (k, x)). }
    rewrite Hprops.
    destruct (String.eqb kind "SchemableIdentifierNode") eqn:Hkind; [|done].
    unfold qualified. simpl.
    destruct (truthy (lookupProp "schema" props)) eqn:Hschema; [done|]. simpl.
    destruct (has ids1 _) eqn:Hhas; [|done]. exfalso.
    apply has_true in Hhas as (n & Hname & Hn).
    apply Hscope in Hn. rewrite (schemableIdentifier_not_root _ Hkind) in Hn.
    apply (Hdisj n).
    + simpl. rewrite Hkind, Hschema. simpl. rewrite Hname. set_solver.
    + set_solver.
Qed.

Lemma rootFree_introducedAnywhere (node : OperationNode) :
  rootFree node = true → introducedAnywhere node = ∅.
Proof.
  induction node as [p|items IH|kind props IH] using OperationNode_nested_ind;
    simpl; intros Hfree.
  - done.
  - apply set_eq. intros n. split; [|set_solver].
    intros (x & Hx & Hn)%elem_of_union_map_inv.
    rewrite Forall_forall in IH. rewrite IH in Hn; [done..|].
    rewrite forallb_forall in Hfree. apply Hfree. by apply list_elem_of_In.
  - apply andb_prop in Hfree as [Hkind Hfree]. apply negb_true_iff in Hkind.
    rewrite Hkind. apply set_eq. intros n. split; [|set_solver].
    intros [?|Hn]%elem_of_union; [done|].
    apply elem_of_union_map_inv in Hn as ([k x] & Hx & Hn). simpl in Hn.
    rewrite Forall_forall in IH. pose proof (IH _ Hx) as Hempty. simpl in Hempty.
    rewrite Hempty in Hn; [done|].
    rewrite forallb_forall in Hfree. apply (Hfree (k, x)). by apply list_elem_of_In.
Qed.

Lemma bareNames_assignProp (props : list (string * OperationNode)) (k : string)
    (v : OperationNode) (n : string) :
  n ∈ ⋃ (map (λ kv, bareNames kv.2) (assignProp k v props)) →
  n ∈ bareNames v ∨ n ∈ ⋃ (map (λ kv, bareNames kv.2) props).
Proof.
  induction props as [|[k' y] props IH]; simpl.
  - set_solver.
  - destruct (String.eqb k k'); simpl; set_solver.
Qed.

Lemma applied_bareNames (node : OperationNode) :
  ∀ ids, bareNames (applied schema ids node) ## innerScope ids node.
Proof.
  induction node as [p|items IH|kind props IH] using OperationNode_nested_ind;
    intros ids.
  - set_solver.
  - rewrite applied_VArray. simpl. intros n Hn Hin.
    apply elem_of_union_map_inv in Hn as (y & Hy & Hn).
    apply list_elem_of_fmap in Hy as (x & -> & Hx).
    rewrite Forall_forall in IH. apply (IH _ Hx ids n Hn).
    by apply innerScope_subseteq.
  - rewrite applied_VNode. simpl.
    set (ids1 := innerScope ids (VNode kind props)).
    assert (Hchildren :
      ⋃ (map (λ kv, bareNames kv.2) (appliedProps schema ids1 props)) ## ids1).
    { intros n Hn Hin. apply elem_of_union_map_inv in Hn as ([k y] & Hy & Hn).
      apply list_elem_of_fmap in Hy as ([k' x] & [= -> ->] & Hx). simpl in Hn.
      rewrite Forall_forall in IH. apply (IH _ Hx ids1 n Hn).
      by apply innerScope_subseteq. }
    assert (Hname : identifierName (VNode kind (appliedProps schema ids1 props))
                    = identifierName (VNode kind props)).
    { unfold identifierName, stringProp. simpl. rewrite lookupProp_appliedProps.
      apply (derived_stringProp schema "name"); [done|]. by exists ids1. }
    destruct (String.eqb kind "SchemableIdentifierNode") eqn:Hkind.
    + unfold qualified. simpl.
      destruct (truthy (lookupProp "schema" (appliedProps schema ids1 props)))
        eqn:Hschema; simpl.
      * rewrite Hkind, Hschema. simpl. set_solver.
      * destruct (has ids1 (identifierName (VNode kind props))) eqn:Hhas; simpl.
        -- rewrite Hkind, lookupProp_assignProp_eq. simpl.
           intros n Hn Hin. apply elem_of_union in Hn as [?|Hn]; [done|].
           apply bareNames_assignProp in Hn as [Hn|Hn].
           ++ vm_compute in Hn. set_solver.
           ++ by apply (Hchildren n).
        -- rewrite Hkind, Hschema. simpl. rewrite Hname.
           intros n Hn Hin. apply elem_of_union in Hn as [Hn|Hn].
           ++ assert (has ids1 (identifierName (VNode kind props)) = true);
                [|congruence].
              apply has_true. exists n. split; [|done].
              destruct (identifierName (VNode kind props)); set_solver.
           ++ by apply (Hchildren n).
    + simpl. rewrite Hkind. simpl. set_solver.
Qed.

Lemma applied_qualifiedFrom (node : OperationNode) :
  ∀ ids allowed, ids ∪ introducedAnywhere node ⊆ allowed →
                 qualifiedFrom schema allowed node (applied schema ids node).
Proof.
  induction node as [p|items IH|kind props IH] using OperationNode_nested_ind;
    intros ids allowed Hsub.
  - constructor.
  - rewrite applied_VArray. constructor.
    apply Forall2_fmap_r, Forall_Forall2_diag, Forall_forall. intros x Hx.
    rewrite Forall_forall in IH. apply IH; [done|].
    simpl in Hsub. intros n Hn. apply Hsub.
    apply elem_of_union in Hn as [?|?]; [set_solver|].
    apply elem_of_union_r. by eapply elem_of_union_map.
  - rewrite applied_VNode. simpl.
    pose proof (innerScope_introduced ids kind props) as Hscope.
    set (ids1 := innerScope ids (VNode kind props)) in *.
    assert (Hprops :
      Forall2 (λ kv kv', kv.1 = kv'.1 ∧ qualifiedFrom schema allowed kv.2 kv'.2)
        props (appliedProps schema ids1 props)).
    { apply Forall2_fmap_r, Forall_Forall2_diag, Forall_forall.
      intros [k x] Hx. simpl. split; [done|].
      rewrite Forall_forall in IH. apply (IH _ Hx). simpl.
      simpl in Hsub. intros n Hn. apply Hsub.
      apply elem_of_union in Hn as [Hn|Hn].
      - apply Hscope in Hn. set_solver.
      - do 2 apply elem_of_union_r.
        by apply (elem_of_union_map (λ kv, introducedAnywhere kv.2) props (k, x)). }
    destruct (String.eqb kind "SchemableIdentifierNode") eqn:Hkind;
      [|by constructor].
    unfold qualified. simpl.
    destruct (truthy (lookupProp "schema" (appliedProps schema ids1 props)))
      eqn:Hschema; simpl; [by constructor|].
    destruct (has ids1 (identifierName (VNode kind props))) eqn:Hhas; simpl;
      [|by constructor].
    apply has_true in Hhas as (n & Hname & Hn).
    apply (qualifiedFrom_schema _ _ _ _ _ n); try done.
    apply Hsub. apply Hscope in Hn.
    rewrite (schemableIdentifier_not_root _ Hkind) in Hn. set_solver.
Qed.

End RunFacts.

Lemma applied_first_wins (first second : string) (node : OperationNode) :
  ∀ ids, applied second ids (applied first ids node) = applied first ids node.
Proof.
  induction node as [p|items IH|kind props IH] using OperationNode_nested_ind;
    intros ids.
  - done.
  - rewrite !applied_VArray. f_equal. rewrite <- list_fmap_compose.
    apply Forall_fmap_ext_1. eapply Forall_impl; [exact IH|]. intros x Hx. apply Hx.
  - assert (Hprops : ∀ ids1,
        appliedProps second ids1 (appliedProps first ids1 props) =
        appliedProps first ids1 props).
    { intros ids1. unfold appliedProps. rewrite <- list_fmap_compose.
      apply Forall_fmap_ext_1. eapply Forall_impl; [exact IH|].
      intros [k x] Hx. simpl in *. by rewrite Hx. }
    assert (Hd : derived first (VNode kind props) (applied first ids (VNode kind props)))
      by (by exists ids).
    pose proof (derived_innerScope first ids _ _ Hd) as Hscope.
    pose proof (derived_identifierName first _ _ Hd) as Hname.
    revert Hscope Hname. rewrite (applied_VNode first). simpl.
    set (ids1 := innerScope ids (VNode kind props)).
    destruct (String.eqb kind "SchemableIdentifierNode") eqn:Hkind.
    + unfold qualified.
      destruct (truthy _ || _) eqn:Hcond; simpl; intros Hscope Hname.
      * rewrite (applied_VNode second), Hkind. simpl. rewrite Hscope. fold ids1.
        rewrite Hprops. unfold qualified. rewrite Hname, Hcond. done.
      * rewrite (applied_VNode second), Hkind. simpl. rewrite Hscope. fold ids1.
        rewrite assignProp_appliedProps, applied_IdentifierNode, Hprops.
        unfold qualified. simpl. by rewrite lookupProp_assignProp_eq.
    + intros Hscope _. rewrite (applied_VNode second), Hkind. simpl. rewrite Hscope.
      fold ids1. by rewrite Hprops.
Qed.

(** X1.  A traversal changes nothing but schemas: its result has the
    kinds, property names, scalars and sequence lengths of its input, and
    differs from it only where a schemable identifier without schema,
    whose name is in the scope entered with or is introduced by a root
    node of the tree, received the identifier of the configured schema. *)
Theorem traversal_only_adds_schemas (schema : string) (ids : Scope)
    (node : OperationNode) :
  qualifiedFrom schema (ids ∪ introducedAnywhere node) node
    (WithSchemaTransformer.transformNode schema node ids).1.
Proof. by apply (applied_qualifiedFrom schema node ids). Qed.

(** X2.  A tree whose schema-less identifiers are named neither in the
    scope entered with nor by any root node of the tree is returned as it
    is; in particular a tree in which every schemable identifier carries
    a schema. *)
Theorem untouched_outside_scope (schema : string) (ids : Scope)
    (node : OperationNode) :
  bareNames node ## ids ∪ introducedAnywhere node →
  WithSchemaTransformer.transformNode schema node ids = (node, ids).
Proof.
  intros Hdisj. rewrite transformNode_applied. f_equal.
  by apply applied_unchanged.
Qed.

(** A statement qualified with [s] before, run with the schema [t]. *)
Lemma untouched_outside_scope_witness :
  WithSchemaTransformer.transformNode "t"
    (Sample.selectJoin (Sample.qualifiedTable "s" "a") (Sample.qualifiedTable "s" "b")) ∅
  = (Sample.selectJoin (Sample.qualifiedTable "s" "a") (Sample.qualifiedTable "s" "b"), ∅).
Proof.
  apply untouched_outside_scope.
  apply (bool_decide_unpack _). vm_compute. exact I.
Defined.

(** X3.  Run on a fragment that holds no root operation node, a new
    transformer qualifies nothing: a table node handed over on its own
    stays bare. *)
Theorem fragment_without_root_unchanged (schema : string) (node : OperationNode) :
  rootFree node = true →
  WithSchemaTransformer.run schema node = node.
Proof.
  intros Hfree. apply applied_unchanged.
  rewrite (rootFree_introducedAnywhere _ Hfree). set_solver.
Qed.

(** The column reference [person.id] on its own. *)
Lemma fragment_without_root_unchanged_witness :
  WithSchemaTransformer.run "s" (Sample.reference (Sample.table "person") "id")
  = Sample.reference (Sample.table "person") "id".
Proof. apply fragment_without_root_unchanged. reflexivity. Defined.

(** X4.  After a traversal no schemable identifier named in the scope
    the node was transformed under is left without schema, at any depth;
    for a run on a root node these are the names the root introduces
    minus the names its WITH clause binds. *)
Theorem no_bare_name_left_in_scope (schema : string) (ids : Scope)
    (node : OperationNode) :
  bareNames (WithSchemaTransformer.transformNode schema node ids).1
    ## innerScope ids node
  ∧ bareNames (WithSchemaTransformer.run schema node)
    ## (if isRootOperationNode node then specCollectedTables node else ∅).
Proof.
  split; [apply applied_bareNames|].
  pose proof (applied_bareNames schema node ∅) as H. unfold innerScope in H.
  destruct (isRootOperationNode node); [|set_solver].
  rewrite collectSchemableIds_spec in H. unfold specCollectedTables.
  unfold WithSchemaTransformer.run. fold (applied schema ∅ node). set_solver.
Qed.

(** X5.  A run with one schema followed by a run with another gives the
    result of the first: what the first run qualified keeps its schema,
    and the second finds nothing left to qualify. *)
Theorem first_schema_wins (first second : string) (node : OperationNode) :
  WithSchemaTransformer.run second (WithSchemaTransformer.run first node)
  = WithSchemaTransformer.run first node.
Proof. apply (applied_first_wins first second node ∅). Qed.

(** X6.  A traversal does not change which names a node introduces or
    binds: the own name, FROM, INTO, TABLE, JOIN and WITH names read off
    the result are those of the input, and so is the set collected for
    it under any scope. *)
Theorem traversal_keeps_names (schema : string) (ids ids' : Scope)
    (node : OperationNode) :
  let result := (WithSchemaTransformer.transformNode schema node ids).1 in
  introducedTableNames result = introducedTableNames node
  ∧ withBoundNames result = withBoundNames node
  ∧ collectSchemableIds ids' result = collectSchemableIds ids' node.
Proof.
  intros result.
  assert (Hd : derived schema node result) by (by exists ids).
  split; [|split].
  - by apply (derived_introducedTableNames schema).
  - by apply (derived_withBoundNames schema).
  - by apply (derived_collectSchemableIds schema).
Qed.

(** X7.  A transformer instance can be used again: the scope a run
    leaves behind is the empty scope it started from, so a second run is
    a run of a new instance. *)
Theorem instance_reusable (schema : string) (node1 node2 : OperationNode) :
  (WithSchemaTransformer.transformNode schema node1 ∅).2 = ∅
  ∧ (WithSchemaTransformer.transformNode schema node2
       (WithSchemaTransformer.transformNode schema node1 ∅).2).1
    = WithSchemaTransformer.run schema node2.
Proof.
  rewrite (transformNode_restores schema node1 ∅). done.
Qed.

(** ** The expression guards and the normalizer *)

Lemma buildersOf_app (tr1 tr2 : list Event) :
  buildersOf (tr1 ++ tr2) = buildersOf tr1 ∪ buildersOf tr2.
Proof.
  induction tr1 as [|ev tr1 IH]; simpl; [set_solver|]. rewrite IH. set_solver.
Qed.

Lemma callToOperationNode_trace (obj : JsValue) (tr : list Event) :
  ∃ suffix, (callToOperationNode obj tr).2 = (tr ++ suffix)%list
    ∧ (length suffix ≤ 1)%nat ∧ created suffix = [] ∧ calls suffix = [].
Proof.
  unfold callToOperationNode. destruct (toOperationNode obj); simpl.
  - exists [EvToOperationNode obj]. split; [done|]. split; [simpl; lia|done].
  - exists []. rewrite app_nil_r. split; [done|]. split; [simpl; lia|done].
Qed.

(** X8.  What [isExpressionOrFactory] lets through, [parseExpression]
    does not reject as an invalid expression; what [isExpression] lets
    through is answered with the value's own node, the accessor being the
    only step taken. *)
Theorem isExpressionOrFactory_accepted (isObject hasExpressionType : JsValue → bool)
    (obj : JsValue) (tr : list Event) :
  isExpressionOrFactory isObject hasExpressionType obj = true →
  (∀ message, (parseExpression obj tr).1 ≠ Throw (Error_ message))
  ∧ (isExpression isObject hasExpressionType obj = true →
     ∃ node, toOperationNode obj = Some node
       ∧ parseExpression obj tr = (Normal node, (tr ++ [EvToOperationNode obj])%list)).
Proof.
  intros Hguard. split.
  - intros message Hthrow.
    assert (Hneither : isOperationNodeSource obj = false ∧ isFunction obj = false).
    { destruct (isOperationNodeSource obj) eqn:Hs.
      - destruct (proj1 (isOperationNodeSource_true obj) Hs) as [_ [node Hnode]].
        by destruct (parse_source obj tr node Hs Hnode) as [Heq _];
          rewrite Heq in Hthrow.
      - destruct (isFunction obj) eqn:Hf; [|done].
        apply isFunction_true in Hf as [f Hf].
        destruct (parse_factory obj tr f Hs Hf) as (_ & Heq & _).
        rewrite Heq in Hthrow. by apply callToOperationNode_no_Error in Hthrow. }
    destruct Hneither as [Hs Hf].
    unfold isExpressionOrFactory, isExpression in Hguard.
    rewrite Hs, Hf, andb_false_r in Hguard. done.
  - unfold isExpression. intros [_ Hs]%andb_prop.
    destruct (proj1 (isOperationNodeSource_true obj) Hs) as [_ [node Hnode]].
    exists node. split; [done|]. by apply parse_source.
Qed.

(** An object with a node, under guards that let every value through. *)
Lemma isExpressionOrFactory_accepted_witness :
  ∃ node, toOperationNode Sample.source = Some node
    ∧ parseExpression Sample.source [] = (Normal node, [EvToOperationNode Sample.source]).
Proof.
  exact (proj2 (isExpressionOrFactory_accepted (λ _, true) (λ _, true)
                  Sample.source [] eq_refl) eq_refl).
Defined.

(** X9.  What [isAliasedExpression] lets through, both entry points
    answer with the value's own node: the accessor is called, no builder
    is constructed and nothing is invoked. *)
Theorem isAliasedExpression_accepted (isObject : JsValue → bool)
    (obj : JsValue) (tr : list Event) :
  isAliasedExpression isObject obj = true →
  ∃ node inner a,
    toOperationNode obj = Some node
    ∧ expression obj = Some inner
    ∧ alias obj = Some a
    ∧ parseAliasedExpression obj tr = (Normal node, (tr ++ [EvToOperationNode obj])%list)
    ∧ parseExpression obj tr = (Normal node, (tr ++ [EvToOperationNode obj])%list).
Proof.
  unfold isAliasedExpression.
  intros [[[_ He]%andb_prop Ha]%andb_prop Hs]%andb_prop.
  destruct (proj1 (isOperationNodeSource_true obj) Hs) as [_ [node Hnode]].
  destruct (expression obj) as [inner|]; [|done].
  destruct (alias obj) as [a|]; [|done].
  exists node, inner, a. destruct (parse_source obj tr node Hs Hnode) as [-> ->]. done.
Qed.

(** The table [person] aliased as [p]. *)
Lemma isAliasedExpression_accepted_witness :
  ∃ node inner a,
    toOperationNode Sample.aliased = Some node
    ∧ expression Sample.aliased = Some inner
    ∧ alias Sample.aliased = Some a
    ∧ parseAliasedExpression Sample.aliased [] =
        (Normal node, [EvToOperationNode Sample.aliased])
    ∧ parseExpression Sample.aliased [] =
        (Normal node, [EvToOperationNode Sample.aliased]).
Proof.
  exact (isAliasedExpression_accepted (λ _, true) Sample.aliased [] eq_refl).
Defined.

(** X10.  On every input of an accepted shape the two entry points do
    the same: same completion, same steps.  On the other inputs both take
    no step and throw, and they part only in the prefix of the message of
    the error: [invalid expression: ] against
    [invalid aliased expression: ], each followed by the serialized
    input; when [JSON.stringify] refuses the input both leave with its
    [TypeError]. *)
Theorem entry_points_agree (exp : JsValue) (tr : list Event) :
  (isOperationNodeSource exp = true ∨ isFunction exp = true →
     parseExpression exp tr = parseAliasedExpression exp tr)
  ∧ (isOperationNodeSource exp = false ∧ isFunction exp = false →
     (parseExpression exp tr).2 = tr
     ∧ (parseAliasedExpression exp tr).2 = tr
     ∧ match JSON_stringify exp with
       | Some text =>
           (parseExpression exp tr).1 =
             Throw (Error_ ("invalid expression: " ++ text))
           ∧ (parseAliasedExpression exp tr).1 =
             Throw (Error_ ("invalid aliased expression: " ++ text))
       | None =>
           (parseExpression exp tr).1 = Throw TypeError
           ∧ (parseAliasedExpression exp tr).1 = Throw TypeError
       end).
Proof.
  split.
  - intros Hshape. destruct (isOperationNodeSource exp) eqn:Hs.
    + destruct (proj1 (isOperationNodeSource_true exp) Hs) as [_ [node Hnode]].
      by destruct (parse_source exp tr node Hs Hnode) as [-> ->].
    + destruct Hshape as [?|Hf]; [done|].
      apply isFunction_true in Hf as [f Hf].
      by destruct (parse_factory exp tr f Hs Hf) as (_ & -> & ->).
  - intros [Hs Hf]. destruct (parse_invalid exp tr Hs Hf) as [-> ->].
    by destruct (JSON_stringify exp).
Qed.

(** A factory, and the number [42]. *)
Lemma entry_points_agree_witness :
  parseExpression Sample.factory [] = parseAliasedExpression Sample.factory []
  ∧ (parseExpression Sample.number42 []).1 = Throw (Error_ "invalid expression: 42")
  ∧ (parseAliasedExpression Sample.number42 []).1 =
    Throw (Error_ "invalid aliased expression: 42").
Proof.
  split.
  - exact (proj1 (entry_points_agree Sample.factory []) (or_intror eq_refl)).
  - exact (proj2 (proj2 (proj2 (entry_points_agree Sample.number42 [])
                           (conj eq_refl eq_refl)))).
Defined.

(** X11.  A factory whose return value has no [toOperationNode] makes
    both entry points throw a [TypeError], not the invalid-expression
    error, and only after the builder was constructed and the factory
    invoked. *)
Theorem factory_without_source_throws_TypeError (exp : JsValue) (tr : list Event)
    (f : ExpressionBuilder → JsValue) :
  isOperationNodeSource exp = false →
  call exp = Some f →
  (∀ eb, toOperationNode (f eb) = None) →
  ∃ eb,
    parseExpression exp tr =
      (Throw TypeError, (tr ++ [EvCreateExpressionBuilder eb; EvCall exp eb])%list)
    ∧ parseAliasedExpression exp tr =
      (Throw TypeError, (tr ++ [EvCreateExpressionBuilder eb; EvCall exp eb])%list).
Proof.
  intros Hs Hf Hresult. exists (fresh (buildersOf tr)).
  destruct (parse_factory exp tr f Hs Hf) as (_ & -> & ->).
  specialize (Hresult (fresh (buildersOf tr))).
  unfold callToOperationNode. by rewrite Hresult.
Qed.

(** X12.  A call of the normalizer only appends to the steps taken
    before it: at most three steps, among them at most one construction
    of a builder and at most one invocation, and these two come together. *)
Theorem normalizer_steps_bounded (exp : JsValue) (tr : list Event) :
  ∃ suffix,
    (parseExpression exp tr).2 = (tr ++ suffix)%list
    ∧ (length suffix ≤ 3)%nat
    ∧ (length (created suffix) ≤ 1)%nat
    ∧ length (calls suffix) = length (created suffix).
Proof.
  destruct (isOperationNodeSource exp) eqn:Hs.
  - destruct (proj1 (isOperationNodeSource_true exp) Hs) as [_ [node Hnode]].
    destruct (parse_source exp tr node Hs Hnode) as [-> _].
    exists [EvToOperationNode exp]. simpl. repeat split; lia.
  - destruct (isFunction exp) eqn:Hf.
    + apply isFunction_true in Hf as [f Hf].
      destruct (parse_factory exp tr f Hs Hf) as (_ & -> & _).
      destruct (callToOperationNode_trace (f (fresh (buildersOf tr)))
        (tr ++ [EvCreateExpressionBuilder (fresh (buildersOf tr));
                EvCall exp (fresh (buildersOf tr))])%list)
        as (suffix & -> & Hlen & Hcreated & Hcalls).
      exists ([EvCreateExpressionBuilder (fresh (buildersOf tr));
               EvCall exp (fresh (buildersOf tr))] ++ suffix)%list.
      rewrite <- app_assoc. split; [done|].
      rewrite created_app, calls_app, Hcreated, Hcalls, length_app. simpl.
      repeat split; lia.
    + destruct (parse_invalid exp tr Hs Hf) as [-> _].
      exists []. rewrite app_nil_r. simpl. repeat split; lia.
Qed.

(** X13.  Two calls of the normalizer in a row hand their factories
    different builders. *)
Theorem successive_builders_differ (exp1 exp2 : JsValue) (tr : list Event) :
  isOperationNodeSource exp1 = false → isFunction exp1 = true →
  isOperationNodeSource exp2 = false → isFunction exp2 = true →
  ∃ eb1 eb2,
    eb1 ≠ eb2
    ∧ (eb1 ∉ buildersOf tr) ∧ (eb2 ∉ buildersOf tr)
    ∧ calls (parseExpression exp2 (parseExpression exp1 tr).2).2
      = (calls tr ++ [(exp1, eb1); (exp2, eb2)])%list.
Proof.
  intros Hs1 [f1 Hf1]%isFunction_true Hs2 [f2 Hf2]%isFunction_true.
  destruct (parse_factory exp1 tr f1 Hs1 Hf1) as (Hfresh1 & Hparse1 & _).
  set (eb1 := fresh (buildersOf tr)) in *.
  set (tr1 := (parseExpression exp1 tr).2).
  destruct (parse_factory exp2 tr1 f2 Hs2 Hf2) as (Hfresh2 & Hparse2 & _).
  set (eb2 := fresh (buildersOf tr1)) in *.
  assert (Htr1 : ∃ suffix, tr1 = ((tr ++ [EvCreateExpressionBuilder eb1; EvCall exp1 eb1])
                                  ++ suffix)%list
                           ∧ calls suffix = []).
  { subst tr1. rewrite Hparse1.
    destruct (callToOperationNode_trace (f1 eb1)
      (tr ++ [EvCreateExpressionBuilder eb1; EvCall exp1 eb1])%list)
      as (suffix & -> & _ & _ & Hcalls). by exists suffix. }
  destruct Htr1 as (suffix & Htr1 & Hcalls1).
  assert (Hin : eb1 ∈ buildersOf tr1 ∧ buildersOf tr ⊆ buildersOf tr1).
  { rewrite Htr1, !buildersOf_app. simpl. set_solver. }
  exists eb1, eb2. split; [|split; [|split]].
  - intros Heq. rewrite Heq in Hin. set_solver.
  - done.
  - set_solver.
  - rewrite Hparse2.
    destruct (callToOperationNode_calls (f2 eb2)
      (tr1 ++ [EvCreateExpressionBuilder eb2; EvCall exp2 eb2])%list) as [-> _].
    rewrite calls_app, Htr1, !calls_app, Hcalls1. simpl.
    by rewrite app_nil_r, <- app_assoc.
Qed.

(** Two factories, from an empty trace. *)
Lemma successive_builders_differ_witness :
  ∃ eb1 eb2,
    eb1 ≠ eb2
    ∧ (eb1 ∉ buildersOf []) ∧ (eb2 ∉ buildersOf [])
    ∧ calls (parseExpression Sample.aliasedFactory
               (parseExpression Sample.factory []).2).2
      = [(Sample.factory, eb1); (Sample.aliasedFactory, eb2)].
Proof.
  exact (successive_builders_differ Sample.factory Sample.aliasedFactory []
           eq_refl eq_refl eq_refl eq_refl).
Defined.

(** A factory that returns the number [42]. *)
Lemma factory_without_source_throws_TypeError_witness :
  ∃ eb,
    parseExpression MoreSamples.badFactory [] =
      (Throw TypeError, [EvCreateExpressionBuilder eb; EvCall MoreSamples.badFactory eb])
    ∧ parseAliasedExpression MoreSamples.badFactory [] =
      (Throw TypeError, [EvCreateExpressionBuilder eb; EvCall MoreSamples.badFactory eb]).
Proof.
  exact (factory_without_source_throws_TypeError MoreSamples.badFactory [] (λ _, Sample.number42)
           eq_refl eq_refl (λ _, eq_refl)).
Defined.
